(** * Tien Len rules engine: a shallow embedding of [src/game/tienlen.ts]

    The development follows the source file top to bottom: the card model
    and its text form, the combination detector, the comparator, dealing,
    the table state machine and the move heuristic.  JavaScript values are
    modelled as follows.

    - A [number] that the engine only ever uses as an integer is a [Z].
      The one operation of the engine that can leave the integers is [%]
      with a zero divisor, which yields [NaN]; [number] carries that value
      where the engine stores or uses such a result.
    - A string is the list of its UTF-16 code units, which is what
      [String.prototype.slice] and [length] observe.
    - An array is a [list]; reading outside its bounds gives [undefined],
      modelled by [None].
    - A call either returns or throws: [outcome].  The only exception the
      engine can raise is the [TypeError] of reading a property of
      [undefined]. *)

From stdpp Require Import base tactics option list numbers strings sorting.

Local Open Scope Z_scope.

(** ** JavaScript preliminaries *)

Inductive exn := TypeError.

Inductive outcome (A : Type) :=
  | Ret (a : A)
  | Throw (e : exn).
Arguments Ret {A} a.
Arguments Throw {A} e.

Global Instance outcome_ret : MRet outcome := λ A a, Ret a.
Global Instance outcome_bind : MBind outcome := λ A B k m,
  match m with
  | Ret a => k a
  | Throw e => Throw e
  end.

(** Left-to-right loop over an array with an accumulator; the loop stops at
    the first iteration that throws. *)
Fixpoint foldlM {A B} (f : B → A → outcome B) (acc : B) (l : list A) : outcome B :=
  match l with
  | [] => Ret acc
  | x :: l' => acc' ← f acc x; foldlM f acc' l'
  end.

Inductive number :=
  | Num (z : Z)
  | NaN.

Global Instance number_eq_dec : EqDecision number.
Proof. solve_decision. Defined.

(** [a % b] on integers: the remainder takes the sign of the dividend, and
    a zero divisor gives [NaN]. *)
Definition js_rem (a b : Z) : number :=
  if decide (b = 0) then NaN else Num (Z.rem a b).

(** [arr[i]] for an integer [i]; a negative index names no element. *)
Definition at_index {A} (arr : list A) (i : Z) : option A :=
  if decide (i < 0) then None else arr !! Z.to_nat i.

(** [arr.indexOf(x)] *)
Definition indexOf {A} `{EqDecision A} (arr : list A) (x : A) : Z :=
  match list_find (λ y, y = x) arr with
  | Some (i, _) => Z.of_nat i
  | None => -1
  end.

(** [arr.findIndex(p)] *)
Definition findIndex {A} (p : A → bool) (arr : list A) : Z :=
  match list_find (λ y, p y = true) arr with
  | Some (i, _) => Z.of_nat i
  | None => -1
  end.

(** [arr.splice(idx, 1)] for an index [idx >= 0], as the engine calls it. *)
Definition splice1 {A} (idx : Z) (arr : list A) : list A :=
  delete (Z.to_nat idx) arr.

(** [Array.prototype.sort(cmp)] is stable; for a consistent comparator its
    result is the one computed by stable insertion. *)
Fixpoint sort_insert {A} (cmp : A → A → Z) (x : A) (l : list A) : list A :=
  match l with
  | [] => [x]
  | y :: l' => if decide (0 < cmp x y) then y :: sort_insert cmp x l' else x :: y :: l'
  end.

Definition js_sort {A} (cmp : A → A → Z) (l : list A) : list A :=
  foldr (sort_insert cmp) [] l.

(** Strings as UTF-16 code units. *)
Definition jsstring := list N.

(** [s.slice(start, end)] with relative negative positions and clamping. *)
Definition clamp_pos (len p : Z) : Z :=
  if decide (p < 0) then Z.max (len + p) 0 else Z.min p len.

Definition str_slice (s : jsstring) (start stop : Z) : jsstring :=
  let len := Z.of_nat (length s) in
  let from := clamp_pos len start in
  let to := clamp_pos len stop in
  take (Z.to_nat (to - from)) (drop (Z.to_nat from) s).

(** [s.slice(start)] *)
Definition str_slice_from (s : jsstring) (start : Z) : jsstring :=
  str_slice s start (Z.of_nat (length s)).

(** ** Cards *)

Inductive Suit := Spade | Heart | Diamond | Club.

Inductive Rank := R3 | R4 | R5 | R6 | R7 | R8 | R9 | R10 | RJ | RQ | RK | RA | R2.

Global Instance Suit_eq_dec : EqDecision Suit.
Proof. solve_decision. Defined.
Global Instance Rank_eq_dec : EqDecision Rank.
Proof. solve_decision. Defined.

Definition RANKS : list Rank := [R3; R4; R5; R6; R7; R8; R9; R10; RJ; RQ; RK; RA; R2].

Record Card := mkCard { rank : Rank; suit : Suit }.

Global Instance Card_eq_dec : EqDecision Card.
Proof. solve_decision. Defined.

(** The string that each [Suit] and [Rank] value is at run time. *)
Definition suitGlyph (s : Suit) : jsstring :=
  match s with
  | Spade => [9824%N]      (* U+2660 *)
  | Heart => [9829%N]      (* U+2665 *)
  | Diamond => [9830%N]    (* U+2666 *)
  | Club => [9827%N]       (* U+2663 *)
  end.

Definition rankToken (r : Rank) : jsstring :=
  match r with
  | R3 => [51%N] | R4 => [52%N] | R5 => [53%N] | R6 => [54%N]
  | R7 => [55%N] | R8 => [56%N] | R9 => [57%N]
  | R10 => [49%N; 48%N]
  | RJ => [74%N] | RQ => [81%N] | RK => [75%N] | RA => [65%N]
  | R2 => [50%N]
  end.

Definition cardToString (c : Card) : jsstring :=
  rankToken (rank c) ++ suitGlyph (suit c).

(** [arr.includes(s)] for an array of suit (rank) strings, together with
    the [Suit] ([Rank]) value that a string found there is. *)
Definition includes_suit (arr : list Suit) (s : jsstring) : option Suit :=
  snd <$> list_find (λ x, suitGlyph x = s) arr.

Definition includes_rank (arr : list Rank) (s : jsstring) : option Rank :=
  snd <$> list_find (λ x, rankToken x = s) arr.

Definition parseCard (s : jsstring) : option Card :=
  let suit := str_slice_from s (-1) in
  let rank := str_slice s 0 (Z.of_nat (length s) - 1) in
  match includes_suit [Spade; Heart; Diamond; Club] suit with
  | None => None
  | Some su =>
      match includes_rank RANKS rank with
      | None => None
      | Some r => Some (mkCard r su)
      end
  end.

Definition rankIndex (r : Rank) : Z := indexOf RANKS r.

Definition buildDeck : list Card :=
  s ← [Spade; Heart; Diamond; Club]; (λ r, mkCard r s) <$> RANKS.

Definition SUIT_ORDER : list Suit := [Club; Diamond; Heart; Spade].

Definition suitIndex (s : Suit) : Z := indexOf SUIT_ORDER s.

Definition cmpRankSuit (a b : Card) : Z :=
  let ra := rankIndex (rank a) in
  let rb := rankIndex (rank b) in
  if decide (ra ≠ rb) then ra - rb
  else suitIndex (suit a) - suitIndex (suit b).

Definition sortCardsByRankSuit (cards : list Card) : list Card :=
  js_sort cmpRankSuit cards.

(** ** Combinations *)

Inductive ComboType := Single | Pair | Triple | Straight | Bomb4.

Global Instance ComboType_eq_dec : EqDecision ComboType.
Proof. solve_decision. Defined.

Record Combo := mkCombo {
  type : ComboType;
  cards : list Card;
  primaryRank : Rank;
}.

Global Instance Combo_eq_dec : EqDecision Combo.
Proof. solve_decision. Defined.

(** [arr[i].prop]: reading a property of [arr[i]] throws when [arr[i]] is
    [undefined]. *)
Definition element {A} (arr : list A) (i : Z) : outcome A :=
  match at_index arr i with
  | Some x => Ret x
  | None => Throw TypeError
  end.

(** [rankIndex(ranks[i])]; [RANKS.indexOf(undefined)] is [-1]. *)
Definition rankIndexAt (ranks : list Rank) (i : Z) : Z :=
  match at_index ranks i with
  | Some r => rankIndex r
  | None => -1
  end.

(** The body of the loop [for (let i = 1; i < ranks.length; i++)] of
    [isStraight], over the remaining values of [i]. *)
Fixpoint consecutiveFrom (ranks : list Rank) (idxs : list Z) : bool :=
  match idxs with
  | [] => true
  | i :: idxs' =>
      if decide (rankIndexAt ranks i ≠ rankIndexAt ranks (i - 1) + 1) then false
      else consecutiveFrom ranks idxs'
  end.

Definition isStraight (cards : list Card) : bool :=
  if decide (length cards < 3)%nat then false
  else
    let ranks := rank <$> cards in
    if existsb (λ r, bool_decide (r = R2)) ranks then false
    else if decide (length (remove_dups ranks) ≠ length ranks) then false
    else consecutiveFrom ranks (seqZ 1 (Z.of_nat (length ranks) - 1)).

Definition highestRank (cards : list Card) : outcome Rank :=
  c ← element (sortCardsByRankSuit cards) (Z.of_nat (length cards) - 1);
  Ret (rank c).

(** [cards.every(c => c.rank === cards[0].rank)]; the callback runs only
    on elements, so [cards[0]] is defined whenever it is read. *)
Definition everySameRank (cards : list Card) : bool :=
  forallb (λ c, bool_decide (Some (rank c) = rank <$> at_index cards 0)) cards.

Definition detectCombo (raw : list Card) : outcome (option Combo) :=
  let cards := sortCardsByRankSuit raw in
  if decide (length cards = 0%nat) then Ret None
  else if decide (length cards = 1%nat) then
    c0 ← element cards 0;
    Ret (Some (mkCombo Single cards (rank c0)))
  else if decide (length cards = 2%nat) then
    c0 ← element cards 0;
    c1 ← element cards 1;
    if decide (rank c0 = rank c1) then
      Ret (Some (mkCombo Pair cards (rank c0)))
    else Ret None
  else if decide (length cards = 3%nat) then
    if everySameRank cards then
      c0 ← element cards 0;
      Ret (Some (mkCombo Triple cards (rank c0)))
    else if isStraight cards then
      r ← highestRank cards;
      Ret (Some (mkCombo Straight cards r))
    else Ret None
  else if bool_decide (length cards = 4%nat) && everySameRank cards then
    c0 ← element cards 0;
    Ret (Some (mkCombo Bomb4 cards (rank c0)))
  else if isStraight cards then
    r ← highestRank cards;
    Ret (Some (mkCombo Straight cards r))
  else Ret None.

(** The part of [compareCombos] after the size checks. *)
Definition compareRankThenSuit (prev next : Combo) : outcome Z :=
  let cmp := Z.sgn (rankIndex (primaryRank next) - rankIndex (primaryRank prev)) in
  if decide (cmp ≠ 0) then Ret cmp
  else
    let prevMax := at_index (sortCardsByRankSuit (cards prev)) (Z.of_nat (length (cards prev)) - 1) in
    let nextMax := at_index (sortCardsByRankSuit (cards next)) (Z.of_nat (length (cards next)) - 1) in
    match nextMax, prevMax with
    | Some n, Some p => Ret (Z.sgn (suitIndex (suit n) - suitIndex (suit p)))
    | _, _ => Throw TypeError
    end.

Definition compareCombos (prev next : Combo) : outcome Z :=
  if decide (type prev = Bomb4) then
    if decide (type next = Bomb4) then
      Ret (Z.sgn (rankIndex (primaryRank next) - rankIndex (primaryRank prev)))
    else Ret (-1)
  else if decide (type next = Bomb4) then Ret 1
  else if decide (type prev ≠ type next) then Ret (-1)
  else if decide (type prev = Straight) then
    if decide (length (cards prev) ≠ length (cards next)) then Ret (-1)
    else compareRankThenSuit prev next
  else
    if decide (length (cards prev) ≠ length (cards next)) then Ret (-1)
    else compareRankThenSuit prev next.

(** ** Dealing *)

(** The loop [for (let i = 0; i < deck.length; i++) hands[i % players].push(deck[i])],
    from index [i] on, over the rest of the deck. *)
Fixpoint dealFrom (players : Z) (i : Z) (rest : list Card) (hands : list (list Card))
    : outcome (list (list Card)) :=
  match rest with
  | [] => Ret hands
  | c :: rest' =>
      match js_rem i players with
      | Num k =>
          match at_index hands k with
          | Some h => dealFrom players (i + 1) rest' (<[Z.to_nat k := h ++ [c]]> hands)
          | None => Throw TypeError
          end
      | NaN => Throw TypeError
      end
  end.

(** [Array.from({ length: players }, () => [])]: a negative length is
    taken as 0. *)
Definition dealPlayers (deck : list Card) (players : Z) : outcome (list (list Card)) :=
  let hands := replicate (Z.to_nat players) [] in
  dealt ← dealFrom players 0 deck hands;
  Ret (map sortCardsByRankSuit dealt).

(** ** Table state *)

Definition PlayerId := Z.

(** [currentPlayer] is the one field into which the engine stores the result
    of a [%], so it is a [number]. *)
Record GameState := mkState {
  players : Z;
  hands : list (list Card);
  currentPlayer : number;
  lastCombo : option Combo;
  passesInRow : Z;
  started : bool;
  finished : bool;
}.

Record MoveCheck := mkCheck {
  ok : bool;
  reason : option string;
  combo : option Combo;
}.

(** [h => h.rank === c.rank && h.suit === c.suit] *)
Definition sameCard (c h : Card) : bool :=
  bool_decide (rank h = rank c) && bool_decide (suit h = suit c).

(** The loop of [isLegalMove] over the proposed cards, on the working copy
    of the hand; [None] is the early return with "card not in hand". *)
Fixpoint takeFromHand (hand : list Card) (cards : list Card) : option (list Card) :=
  match cards with
  | [] => Some hand
  | c :: cards' =>
      let idx := findIndex (sameCard c) hand in
      if decide (idx < 0) then None
      else takeFromHand (splice1 idx hand) cards'
  end.

Definition isLegalMove (state : GameState) (player : PlayerId) (cards : list Card)
    : outcome MoveCheck :=
  if finished state then Ret (mkCheck false (Some "game finished"%string) None)
  else if negb (started state) then Ret (mkCheck false (Some "game not started"%string) None)
  else if decide (Num player ≠ currentPlayer state) then
    Ret (mkCheck false (Some "not your turn"%string) None)
  else
    hand ← element (hands state) player;
    match takeFromHand hand cards with
    | None => Ret (mkCheck false (Some "card not in hand"%string) None)
    | Some _ =>
        combo ← detectCombo cards;
        match combo with
        | None => Ret (mkCheck false (Some "invalid combo"%string) None)
        | Some combo =>
            match lastCombo state with
            | None => Ret (mkCheck true None (Some combo))
            | Some last =>
                cmp ← compareCombos last combo;
                if decide (0 < cmp) then Ret (mkCheck true None (Some combo))
                else Ret (mkCheck false (Some "does not beat last combo"%string) (Some combo))
            end
        end
    end.

(** One iteration of the removal loop of [applyMove] on the copied hands. *)
Definition removeFromHands (player : PlayerId) (hs : list (list Card)) (c : Card)
    : outcome (list (list Card)) :=
  h ← element hs player;
  let idx := findIndex (sameCard c) h in
  if decide (0 ≤ idx) then Ret (<[Z.to_nat player := splice1 idx h]> hs)
  else Ret hs.

Definition applyMove (state : GameState) (player : PlayerId) (combo : Combo)
    : outcome GameState :=
  hs ← foldlM (removeFromHands player) (hands state) (cards combo);
  h ← element hs player;
  let fin := if decide (length h = 0%nat) then true else finished state in
  Ret {| players := players state;
         hands := hs;
         currentPlayer := js_rem (player + 1) (players state);
         lastCombo := Some combo;
         passesInRow := 0;
         started := started state;
         finished := fin |}.

Definition applyPass (state : GameState) (player : PlayerId) : GameState :=
  if finished state then state
  else
    let passes := passesInRow state + 1 in
    let clear := bool_decide (players state - 1 ≤ passes) in
    {| players := players state;
       hands := hands state;
       currentPlayer := js_rem (player + 1) (players state);
       lastCombo := if clear then None else lastCombo state;
       passesInRow := if clear then 0 else passes;
       started := started state;
       finished := finished state |}.

(** ** Move heuristic *)

(** A [Record<string, Card[]>] keyed by rank: the entries in the order in
    which the keys were created. *)
Definition groupGet (groups : list (Rank * list Card)) (r : Rank) : option (list Card) :=
  (λ e, e.2.2) <$> list_find (λ e, e.1 = r) groups.

Definition groupPush (groups : list (Rank * list Card)) (c : Card) : list (Rank * list Card) :=
  match list_find (λ e, e.1 = rank c) groups with
  | None => groups ++ [(rank c, [c])]
  | Some (i, (_, cs)) => <[i := (rank c, cs ++ [c])]> groups
  end.

Definition groupCardsByRank (cards : list Card) : list (Rank * list Card) :=
  foldl groupPush [] cards.

(** The rank strings that are canonical array indices, with their value. *)
Definition arrayIndexKey (r : Rank) : option Z :=
  match r with
  | R2 => Some 2 | R3 => Some 3 | R4 => Some 4 | R5 => Some 5 | R6 => Some 6
  | R7 => Some 7 | R8 => Some 8 | R9 => Some 9 | R10 => Some 10
  | RJ | RQ | RK | RA => None
  end.

(** [Object.entries]: array-index keys first, in ascending numeric order,
    then the other keys in creation order. *)
Definition Object_entries (groups : list (Rank * list Card)) : list (Rank * list Card) :=
  js_sort (λ a b, default 0 (arrayIndexKey a.1) - default 0 (arrayIndexKey b.1))
          (List.filter (λ e, bool_decide (is_Some (arrayIndexKey e.1))) groups)
  ++ List.filter (λ e, bool_decide (arrayIndexKey e.1 = None)) groups.

(** The loop [for (let j = 0; j < length; j++)] of [findStraights], over
    the remaining values of [j]; [None] is [valid = false]. *)
Fixpoint straightCardsFrom (groups : list (Rank * list Card)) (i : Z) (js : list Z)
    (straightCards : list Card) : option (list Card) :=
  match js with
  | [] => Some straightCards
  | j :: js' =>
      match at_index RANKS (i + j) with
      | None => None
      | Some r =>
          if decide (r = R2) then None
          else match groupGet groups r with
               | None => None
               | Some [] => None
               | Some (c :: _) => straightCardsFrom groups i js' (straightCards ++ [c])
               end
      end
  end.

Definition findStraights (hand : list Card) : list (list Card) :=
  let rankGroups := groupCardsByRank hand in
  i ← seqZ 0 (Z.of_nat (length RANKS) - 2);
  len ← seqZ 3 (Z.min 10 (Z.of_nat (length RANKS) - i) - 2);
  match straightCardsFrom rankGroups i (seqZ 0 len) [] with
  | Some straightCards =>
      if decide (Z.of_nat (length straightCards) = len) then [straightCards] else []
  | None => []
  end.

(** [const legal = isLegalMove(state, player, move); if (legal.ok) moves.push(move)] *)
Definition tryMove (state : GameState) (player : PlayerId) (moves : list (list Card))
    (move : list Card) : outcome (list (list Card)) :=
  legal ← isLegalMove state player move;
  Ret (if ok legal then moves ++ [move] else moves).

Definition getAllLegalMoves (state : GameState) (player : PlayerId)
    : outcome (list (list Card)) :=
  hand ← element (hands state) player;
  moves ← foldlM (λ moves card, tryMove state player moves [card]) [] hand;
  let rankGroups := groupCardsByRank hand in
  moves ← foldlM (λ moves e,
             let cards := e.2 in
             if decide (2 ≤ length cards)%nat then
               moves ← tryMove state player moves (take 2 cards);
               if decide (3 ≤ length cards)%nat then
                 tryMove state player moves (take 3 cards)
               else Ret moves
             else Ret moves) moves (Object_entries rankGroups);
  let straights := findStraights hand in
  moves ← foldlM (tryMove state player) moves straights;
  foldlM (λ moves e,
     let cards := e.2 in
     if decide (length cards = 4%nat) then tryMove state player moves cards
     else Ret moves) moves (Object_entries rankGroups).

Definition scoreOpeningMove (move : list Card) (hand : option (list Card)) : outcome Z :=
  score ←
    (if decide (length move = 1%nat) then
       m0 ← element move 0;
       let score := 10 in
       let rankIdx := rankIndex (rank m0) in
       let score := if decide (4 ≤ rankIdx ∧ rankIdx ≤ 9) then score + 5 else score in
       match hand with
       | None => Throw TypeError
       | Some hand =>
           let remainingHand := List.filter (λ card, negb (sameCard m0 card)) hand in
           let sameRankCards :=
             List.filter (λ card, bool_decide (rank card = rank m0)) remainingHand in
           Ret (if decide (1 ≤ length sameRankCards)%nat then score - 3 else score)
       end
     else if decide (length move = 2%nat) then Ret 5
     else if decide (length move = 3%nat) then Ret 3
     else if decide (4 ≤ length move)%nat then Ret 1
     else Ret 0);
  combo ← detectCombo move;
  match combo with
  | Some combo =>
      if decide (type combo = Pair ∨ type combo = Triple) then Ret (score + 2)
      else Ret score
  | None => Ret score
  end.

(** [(a, b) => b.score - a.score] *)
Definition byScoreDesc (a b : list Card * Z) : Z := b.2 - a.2.

Definition selectBestOpeningMove (moves : list (list Card)) (state : GameState)
    (player : PlayerId) : outcome (option (list Card)) :=
  let hand := at_index (hands state) player in
  scoredMoves ← mapM (λ move, score ← scoreOpeningMove move hand; Ret (move, score)) moves;
  match js_sort byScoreDesc scoredMoves with
  | best :: _ => Ret (Some best.1)
  | [] => Ret (moves !! 0%nat)
  end.

Definition scoreFollowingMove (last : Combo) (move : list Card) : outcome (list Card * Z) :=
  combo ← detectCombo move;
  match combo with
  | None => Ret (move, -1000)
  | Some combo =>
      comparison ← compareCombos last combo;
      if decide (comparison ≤ 0) then Ret (move, -1000)
      else
        let score := comparison * 10 in
        let score :=
          if decide (type combo = type last ∧ length (cards combo) = length (cards last))
          then score + 5 else score in
        let score := if decide (type combo = Bomb4) then score - 20 else score in
        Ret (move, score)
  end.

Definition selectBestFollowingMove (moves : list (list Card)) (state : GameState)
    (player : PlayerId) : outcome (option (list Card)) :=
  match lastCombo state with
  | None => Ret (moves !! 0%nat)
  | Some last =>
      scoredMoves ← mapM (scoreFollowingMove last) moves;
      let validMoves := List.filter (λ item, bool_decide (-1000 < item.2)) scoredMoves in
      if decide (length validMoves = 0%nat) then Ret None
      else
        best ← element (js_sort byScoreDesc validMoves) 0;
        Ret (Some best.1)
  end.

Definition selectBestMove (moves : list (list Card)) (state : GameState)
    (player : PlayerId) : outcome (option (list Card)) :=
  if decide (length moves = 0%nat) then Ret None
  else match lastCombo state with
       | None => selectBestOpeningMove moves state player
       | Some _ => selectBestFollowingMove moves state player
       end.

(** The result [{ play }] is modelled by its only field. *)
Definition aiChooseMove (state : GameState) (player : PlayerId)
    : outcome (option (list Card)) :=
  hand ← element (hands state) player;
  let sorted := sortCardsByRankSuit hand in
  legalMoves ← getAllLegalMoves state player;
  if decide (length legalMoves = 0%nat) then Ret None
  else selectBestMove legalMoves state player.

(** ** Shuffling *)

(** An array whose elements may be [undefined]: reading outside the bounds
    gives [undefined], and writing at an index at or past the length
    extends the array, the elements in between being empty. *)
Definition array_get {T} (a : list (option T)) (i : nat) : option T :=
  default None (a !! i).

Definition array_set {T} (a : list (option T)) (i : nat) (v : option T) : list (option T) :=
  if decide (i < length a)%nat then <[i := v]> a
  else a ++ replicate (i - length a) None ++ [v].

(** [[a[i], a[j]] = [a[j], a[i]]]: both elements are read, then [a[i]] and
    [a[j]] are written in this order. *)
Definition swapElements {T} (a : list (option T)) (i j : nat) : list (option T) :=
  let ai := array_get a i in
  let aj := array_get a j in
  array_set (array_set a i aj) j ai.

(** The random source enters [shuffle] only through the index
    [j = Math.floor(rng() * (i + 1))] of each iteration: [pick i] is that
    index in the iteration [i].  It is a natural number for every source
    that returns non-negative numbers, as [Math.random] does. *)
Definition shuffle {T} (arr : list T) (pick : nat → nat) : list (option T) :=
  let a := Some <$> arr in
  foldl (λ a i, swapElements a i (pick i)) a (reverse (seq 1 (length a - 1))).

(** ** Starting a game *)

(** [h => h.some(c => c.rank === '3' && c.suit === '♣')] *)
Definition holdsThreeOfClubs (h : list Card) : bool :=
  existsb (λ c, bool_decide (rank c = R3) && bool_decide (suit c = Club)) h.

(** [initSinglePlayer] from the shuffled deck on: [deck] is the value of
    [shuffle(buildDeck(), rng)]. *)
Definition initSinglePlayer (deck : list Card) : outcome GameState :=
  hands ← dealPlayers deck 4;
  let starter := findIndex holdsThreeOfClubs hands in
  Ret {| players := 4;
         hands := hands;
         currentPlayer := Num (if decide (0 ≤ starter) then starter else 0);
         lastCombo := None;
         passesInRow := 0;
         started := true;
         finished := false |}.

(** ** The simple heuristic *)

(** The loop [for (const c of sorted)] of [aiChooseMoveSimple]. *)
Fixpoint firstLegalSingle (state : GameState) (player : PlayerId) (sorted : list Card)
    : outcome (option (list Card)) :=
  match sorted with
  | [] => Ret None
  | c :: sorted' =>
      legal ← isLegalMove state player [c];
      if ok legal then Ret (Some [c])
      else firstLegalSingle state player sorted'
  end.

Definition aiChooseMoveSimple (state : GameState) (player : PlayerId)
    : outcome (option (list Card)) :=
  hand ← element (hands state) player;
  firstLegalSingle state player (sortCardsByRankSuit hand).

(** ** The game page *)

(** The update of the selection in [toggleSelect]. *)
Definition toggleSelect (prev : list Card) (c : Card) : list Card :=
  let i := findIndex (sameCard c) prev in
  if decide (0 ≤ i) then splice1 i prev
  else prev ++ [c].


(** The effect that moves the seats other than seat 0: [None] when the
    effect returns without scheduling a step, and otherwise the state that
    the scheduled step sets. *)
Definition aiTurn (state : GameState) : outcome (option GameState) :=
  if finished state then Ret None
  else if negb (started state) then Ret None
  else if decide (currentPlayer state = Num 0) then Ret None
  else
    match currentPlayer state with
    | NaN => Throw TypeError
    | Num player =>
        play ← aiChooseMove state player;
        let pass := Ret (Some (applyPass state player)) in
        match play with
        | Some play =>
            if decide (0 < length play)%nat then
              legal ← isLegalMove state player play;
              match ok legal, combo legal with
              | true, Some combo =>
                  state' ← applyMove state player combo;
                  Ret (Some state')
              | _, _ => pass
              end
            else pass
        | None => pass
        end
    end.

(** * Specification vocabulary

    The predicates and reference functions in which the properties below
    are stated. *)

(** Rank-then-suit order, as the specification words it. *)
Definition cardLe (a b : Card) : Prop :=
  rankIndex (rank a) < rankIndex (rank b) ∨
  (rank a = rank b ∧ suitIndex (suit a) ≤ suitIndex (suit b)).

(** [c] is the highest card of [cs] in the rank-then-suit order. *)
Definition highestCard (cs : list Card) (c : Card) : Prop :=
  c ∈ cs ∧ ∀ d, d ∈ cs → cardLe d c.

(** All cards have the same rank. *)
Definition allEqualRank (cs : list Card) : Prop :=
  ∀ a b, a ∈ cs → b ∈ cs → rank a = rank b.

(** In the sequence [l], the rank of each card is the successor of the
    rank of the card before it. *)
Definition consecutiveRun (l : list Card) : Prop :=
  ∀ (i : nat) a b, l !! i = Some a → l !! S i = Some b →
    rankIndex (rank b) = rankIndex (rank a) + 1.

(** A strictly consecutive, [2]-free, duplicate-free run: no rank occurs
    twice, no card is a [2], and the cards can be laid out so that each
    rank is the successor of the one before. *)
Definition isRun (cs : list Card) : Prop :=
  NoDup (rank <$> cs) ∧
  (∀ c, c ∈ cs → rank c ≠ R2) ∧
  ∃ l, l ≡ₚ cs ∧ consecutiveRun l.

(** [r] is the rank of the highest card of [cs]. *)
Definition highestRankOf (cs : list Card) (r : Rank) : Prop :=
  (∃ c, c ∈ cs ∧ rank c = r) ∧ ∀ d, d ∈ cs → rankIndex (rank d) ≤ rankIndex r.

(** The sequence [sorted] is the rank-then-suit sorted sequence of [raw]. *)
Definition sortedFrom (raw sorted : list Card) : Prop :=
  sorted ≡ₚ raw ∧ StronglySorted cardLe sorted.

(** [res] is a combination of type [ty] whose primary rank is the rank
    shared by all cards of [raw]. *)
Definition groupOf (ty : ComboType) (raw : list Card) (res : option Combo) : Prop :=
  ∃ c, res = Some c ∧ type c = ty ∧ ∀ x, x ∈ raw → rank x = primaryRank c.

(** [res] is a straight whose primary rank is that of the highest card. *)
Definition straightOf (raw : list Card) (res : option Combo) : Prop :=
  ∃ c, res = Some c ∧ type c = Straight ∧ highestRankOf raw (primaryRank c).

(** The signed result of comparing [next] against [prev] along an index:
    [1] (greater) when [next] is higher, [-1] (less) when lower, [0]
    when equal. *)
Definition ordering (p n : Z) : Z :=
  match p ?= n with
  | Lt => 1
  | Eq => 0
  | Gt => -1
  end.

(** The same along the rank order and along the suit order. *)
Definition rankOrder (p n : Rank) : Z := ordering (rankIndex p) (rankIndex n).
Definition suitOrder (p n : Suit) : Z := ordering (suitIndex p) (suitIndex n).

(** The number of copies of a card value in a list of cards. *)
Definition copies (c : Card) (l : list Card) : nat := count_occ Card_eq_dec l c.

(** Some card is proposed more often than the hand holds it.  For a
    proposal without repetitions this says that one of its cards is not in
    the hand ([missingFrom_set]). *)
Definition missingFrom (hand proposal : list Card) : Prop :=
  ∃ c, (copies c hand < copies c proposal)%nat.

(** The two kinds of answer of the legality check that carry no more than
    a reason, or the accepted combination. *)
Definition rejected (why : string) : MoveCheck := mkCheck false (Some why) None.
Definition accepted (c : Combo) : MoveCheck := mkCheck true None (Some c).

(** A two-seat game in progress in which seat 1, holding one 4 of spades,
    waits for seat 0 to play. *)
Definition waitingSeatState : GameState :=
  {| players := 2;
     hands := [[mkCard R3 Spade]; [mkCard R4 Spade]];
     currentPlayer := Num 0;
     lastCombo := None;
     passesInRow := 0;
     started := true;
     finished := false |}.

(** The hand of the seat along the removal loop of [applyMove]. *)
Definition removeCards (hand : list Card) (cs : list Card) : list Card :=
  foldl (λ h c,
           let idx := findIndex (sameCard c) h in
           if decide (0 ≤ idx) then splice1 idx h else h) hand cs.

(** A finished two-seat game in which seat 1 still holds a card. *)
Definition finishedState : GameState :=
  {| players := 2;
     hands := [[]; [mkCard R4 Spade]];
     currentPlayer := Num 1;
     lastCombo := Some (mkCombo Single [mkCard R3 Spade] R3);
     passesInRow := 0;
     started := true;
     finished := true |}.

(** Round-robin distribution in the words of the specification: of the
    cards [rest], which sit at deck indices [i], [i + 1], ..., those that
    go to [seat] are the ones whose index is [seat] modulo [n]. *)
Fixpoint dealtTo (n seat : Z) (i : Z) (rest : list Card) : list Card :=
  match rest with
  | [] => []
  | c :: rest' =>
      if decide (i `mod` n = seat) then c :: dealtTo n seat (i + 1) rest'
      else dealtTo n seat (i + 1) rest'
  end.

(** The proposal [move] passes the legality check of the seat. *)
Definition legalFor (st : GameState) (seat : PlayerId) (move : list Card) : Prop :=
  ∃ r, isLegalMove st seat move = Ret r ∧ ok r = true.

(** The scored list pairs each move, in order, with a score. *)
Definition scoresOf (moves : list (list Card)) (scored : list (list Card * Z)) : Prop :=
  Forall2 (λ m p, p.1 = m) moves scored.

(** The invariant of a combination: the number of cards and the primary
    rank that go with its type, on sorted cards.  A straight has between 3
    and 12 cards, is a run, and carries the rank of its highest card. *)
Definition wellShaped (c : Combo) : Prop :=
  StronglySorted cardLe (cards c) ∧
  match type c with
  | Single => length (cards c) = 1%nat ∧ ∀ x, x ∈ cards c → rank x = primaryRank c
  | Pair => length (cards c) = 2%nat ∧ ∀ x, x ∈ cards c → rank x = primaryRank c
  | Triple => length (cards c) = 3%nat ∧ ∀ x, x ∈ cards c → rank x = primaryRank c
  | Bomb4 => length (cards c) = 4%nat ∧ ∀ x, x ∈ cards c → rank x = primaryRank c
  | Straight =>
      (3 ≤ length (cards c) ≤ 12)%nat ∧ isRun (cards c) ∧
      highestRankOf (cards c) (primaryRank c)
  end.

(** [next] beats [prev]: the comparator answers greater. *)
Definition beats (prev next : Combo) : Prop := compareCombos prev next = Ret 1.

(** The suit index of the highest card of a combination, if it has a card. *)
Definition topSuit (c : Combo) : option Z :=
  (λ x, suitIndex (suit x)) <$> last (sortCardsByRankSuit (cards c)).

(** * Properties *)

(** ** Outcomes, indexing and sorting *)

Lemma bind_Ret {A B} (x : A) (k : A → outcome B) : (Ret x ≫= k) = k x.
Proof. reflexivity. Qed.

Lemma at_index_0 {A} (x : A) (l : list A) : at_index (x :: l) 0 = Some x.
Proof. reflexivity. Qed.

Lemma at_index_nat {A} (l : list A) (i : nat) : at_index l (Z.of_nat i) = l !! i.
Proof.
  unfold at_index. destruct (decide (Z.of_nat i < 0)); [lia|].
  by rewrite Nat2Z.id.
Qed.

Lemma at_index_Some {A} (l : list A) (i : Z) (x : A) :
  at_index l i = Some x ↔ 0 ≤ i ∧ l !! Z.to_nat i = Some x.
Proof.
  unfold at_index. destruct (decide (i < 0)); split.
  - done.
  - intros [? _]. lia.
  - intros. split; [lia|done].
  - by intros [_ ?].
Qed.

Lemma at_index_last {A} (l : list A) :
  at_index l (Z.of_nat (length l) - 1) = last l.
Proof.
  destruct l as [|x l]; [done|].
  replace (Z.of_nat (length (x :: l)) - 1) with (Z.of_nat (length l)) by (simpl; lia).
  rewrite at_index_nat, last_lookup. done.
Qed.

Section sorting.
Context {A : Type} (cmp : A → A → Z).

Lemma sort_insert_perm x l : sort_insert cmp x l ≡ₚ x :: l.
Proof.
  induction l as [|y l IH]; simpl; [done|].
  destruct (decide (0 < cmp x y)); [|done].
  rewrite IH. apply Permutation_swap.
Qed.

Lemma js_sort_perm l : js_sort cmp l ≡ₚ l.
Proof.
  induction l as [|x l IH]; simpl; [done|].
  by rewrite sort_insert_perm, IH.
Qed.

Lemma length_js_sort l : length (js_sort cmp l) = length l.
Proof. apply Permutation_length, js_sort_perm. Qed.

Lemma elem_of_js_sort x l : x ∈ js_sort cmp l ↔ x ∈ l.
Proof. by rewrite js_sort_perm. Qed.

(** When [cmp] decides a total preorder [R], the result is sorted. *)
Context (R : relation A) `{!Transitive R, !Total R}.
Hypothesis cmp_R : ∀ x y, cmp x y ≤ 0 ↔ R x y.

Lemma sort_insert_sorted x l :
  StronglySorted R l → StronglySorted R (sort_insert cmp x l).
Proof using cmp_R Transitive0 Total0.
  induction 1 as [|y l Hl IH Hy]; simpl.
  - repeat constructor.
  - destruct (decide (0 < cmp x y)) as [Hgt|Hle].
    + constructor; [done|].
      apply Forall_forall. intros z Hz.
      apply (elem_of_Permutation_proper _ _ _ (sort_insert_perm x l)) in Hz.
      apply elem_of_cons in Hz as [->|Hz].
      * destruct (total R y x) as [?|Hxy]; [done|].
        apply cmp_R in Hxy. lia.
      * by eapply Forall_forall in Hy.
    + assert (R x y) by (apply cmp_R; lia).
      constructor; [by constructor|].
      constructor; [done|].
      eapply Forall_impl; [exact Hy|]. intros z ?. by etrans.
Qed.

Lemma js_sort_sorted l : StronglySorted R (js_sort cmp l).
Proof using cmp_R Transitive0 Total0.
  induction l as [|x l IH]; simpl; [constructor|].
  by apply sort_insert_sorted.
Qed.
End sorting.

(** ** The card order *)

Lemma rankIndex_range r : 0 ≤ rankIndex r ≤ 12.
Proof. destruct r; vm_compute; split; discriminate. Qed.

Global Instance rankIndex_inj : Inj (=) (=) rankIndex.
Proof. intros [] []; vm_compute; congruence. Qed.

Global Instance suitIndex_inj : Inj (=) (=) suitIndex.
Proof. intros [] []; vm_compute; congruence. Qed.

Lemma cmpRankSuit_le a b : cmpRankSuit a b ≤ 0 ↔ cardLe a b.
Proof.
  unfold cmpRankSuit, cardLe.
  pose proof (rankIndex_range (rank a)). pose proof (rankIndex_range (rank b)).
  destruct (decide (rankIndex (rank a) ≠ rankIndex (rank b))) as [Hne|Heq].
  - split; [intros; left; lia|].
    intros [?|[Hr _]]; [lia|]. by rewrite Hr in Hne.
  - apply dec_stable in Heq. apply (inj rankIndex) in Heq as Hr.
    split; [intros; right; split; [done|lia]|].
    intros [?|[_ ?]]; lia.
Qed.

Global Instance cardLe_trans : Transitive cardLe.
Proof.
  intros a b c [H1|[H1 H1']] [H2|[H2 H2']]; unfold cardLe.
  - left; lia.
  - left. by rewrite <-H2.
  - left. by rewrite H1.
  - right. split; [congruence|lia].
Qed.

Global Instance cardLe_total : Total cardLe.
Proof.
  intros a b. unfold cardLe.
  destruct (decide (rank a = rank b)) as [Hr|Hr].
  - destruct (decide (suitIndex (suit a) ≤ suitIndex (suit b))); [by left; right|].
    right; right. split; [done|lia].
  - assert (rankIndex (rank a) ≠ rankIndex (rank b)) by (by intros ?%(inj _)).
    destruct (decide (rankIndex (rank a) < rankIndex (rank b))); [by left; left|].
    right; left. lia.
Qed.

Global Instance cardLe_antisymm : AntiSymm (=) cardLe.
Proof.
  intros [ra sa] [rb sb] [H1|[H1 H1']] [H2|[H2 H2']]; simpl in *; subst; try lia.
  f_equal. apply (inj suitIndex). lia.
Qed.

Lemma sortCards_perm l : sortCardsByRankSuit l ≡ₚ l.
Proof. apply js_sort_perm. Qed.

Lemma sortCards_length l : length (sortCardsByRankSuit l) = length l.
Proof. apply length_js_sort. Qed.

Lemma sortCards_sorted l : StronglySorted cardLe (sortCardsByRankSuit l).
Proof. apply js_sort_sorted; [apply _..|]. apply cmpRankSuit_le. Qed.

(** A sorted arrangement of the same cards is the one the engine computes. *)
Lemma sortCards_unique l k :
  k ≡ₚ l → StronglySorted cardLe k → sortCardsByRankSuit l = k.
Proof.
  intros Hp Hs. apply (StronglySorted_unique cardLe); [apply sortCards_sorted|done|].
  by rewrite sortCards_perm.
Qed.

Lemma StronglySorted_last_max (l : list Card) c :
  StronglySorted cardLe l → last l = Some c → ∀ d, d ∈ l → cardLe d c.
Proof.
  induction 1 as [|x l Hl IH Hx]; [done|].
  intros Hlast d Hd. destruct l as [|y l].
  - simpl in Hlast. injection Hlast as ->. apply list_elem_of_singleton in Hd as ->.
    destruct (total cardLe c c); done.
  - change (last (x :: y :: l)) with (last (y :: l)) in Hlast.
    apply elem_of_cons in Hd as [->|Hd]; [|by apply IH].
    eapply Forall_forall in Hx; [exact Hx|].
    rewrite last_lookup in Hlast. by eapply list_elem_of_lookup_2.
Qed.

Lemma sortCards_last l c :
  last (sortCardsByRankSuit l) = Some c → highestCard l c.
Proof.
  intros Hlast. split.
  - rewrite <-(sortCards_perm l). rewrite last_lookup in Hlast.
    by eapply list_elem_of_lookup_2.
  - intros d Hd. eapply StronglySorted_last_max; [apply sortCards_sorted|done|].
    by rewrite sortCards_perm.
Qed.

Lemma sortCards_last_is_Some l : l ≠ [] → is_Some (last (sortCardsByRankSuit l)).
Proof.
  intros Hl. apply last_is_Some. intros Hs.
  apply (f_equal length) in Hs. rewrite sortCards_length in Hs. by destruct l.
Qed.

(** ** The deck *)

Lemma buildDeck_complete : length buildDeck = 52%nat ∧ NoDup buildDeck ∧ ∀ c, c ∈ buildDeck.
Proof.
  split_and!.
  - reflexivity.
  - by apply (bool_decide_unpack _); vm_compute.
  - intros [[] []]; by apply (bool_decide_unpack _); vm_compute.
Qed.

(** ** Card text form *)

Lemma str_slice_last (tok : jsstring) (g : N) : str_slice_from (tok ++ [g]) (-1) = [g].
Proof.
  unfold str_slice_from, str_slice, clamp_pos. rewrite length_app. simpl.
  destruct (decide (-1 < 0)); [|lia].
  destruct (decide (Z.of_nat (length tok + 1) < 0)); [lia|].
  replace (Z.to_nat (Z.max (Z.of_nat (length tok + 1) + -1) 0)) with (length tok) by lia.
  rewrite drop_app_length.
  replace (Z.to_nat _) with 1%nat by lia. done.
Qed.

Lemma str_slice_init (tok : jsstring) (g : N) :
  str_slice (tok ++ [g]) 0 (Z.of_nat (length (tok ++ [g])) - 1) = tok.
Proof.
  unfold str_slice, clamp_pos. rewrite length_app. simpl.
  destruct (decide (0 < 0)); [lia|].
  destruct (decide (Z.of_nat (length tok + 1) - 1 < 0)); [lia|].
  replace (Z.to_nat (Z.min 0 _)) with 0%nat by lia. simpl.
  replace (Z.to_nat _) with (length tok) by lia.
  apply take_app_length.
Qed.

Lemma includes_suit_Some arr s su : includes_suit arr s = Some su → suitGlyph su = s.
Proof.
  unfold includes_suit. intros H.
  apply fmap_Some in H as [[i x] [H ->]]. by apply list_find_Some in H as (_ & ? & _).
Qed.

Lemma includes_rank_Some arr s r : includes_rank arr s = Some r → rankToken r = s.
Proof.
  unfold includes_rank. intros H.
  apply fmap_Some in H as [[i x] [H ->]]. by apply list_find_Some in H as (_ & ? & _).
Qed.

Lemma includes_suit_None s :
  (∀ su, suitGlyph su ≠ s) → includes_suit [Spade; Heart; Diamond; Club] s = None.
Proof.
  intros H. unfold includes_suit. apply fmap_None, list_find_None, Forall_forall.
  intros su _. apply H.
Qed.

Lemma includes_rank_None s : (∀ r, rankToken r ≠ s) → includes_rank RANKS s = None.
Proof.
  intros H. unfold includes_rank. apply fmap_None, list_find_None, Forall_forall.
  intros r _. apply H.
Qed.

Lemma parseCard_snoc tok g :
  parseCard (tok ++ [g]) =
    match includes_suit [Spade; Heart; Diamond; Club] [g] with
    | None => None
    | Some su =>
        match includes_rank RANKS tok with
        | None => None
        | Some r => Some (mkCard r su)
        end
    end.
Proof. unfold parseCard. by rewrite str_slice_last, str_slice_init. Qed.

Lemma parseCard_Some s c : parseCard s = Some c → s = cardToString c.
Proof.
  destruct (decide (s = [])) as [->|Hne]; [done|].
  destruct (exists_last Hne) as (tok & g & ->).
  rewrite parseCard_snoc.
  destruct (includes_suit _ _) as [su|] eqn:Hsu; [|done].
  destruct (includes_rank _ _) as [r|] eqn:Hr; [|done].
  intros [= <-]. unfold cardToString. simpl.
  by rewrite (includes_suit_Some _ _ _ Hsu), (includes_rank_Some _ _ _ Hr).
Qed.

(** C9.  Printing then parsing a card gives the card back, for each of the
    52 cards (the two-unit rank "10" included).  A string whose last code
    unit is not one of the four suit glyphs, or whose text before it is not
    one of the thirteen rank tokens, parses to the absent result, and so
    does every string that is not the printed form of a card (the empty
    string among them); parsing has no failing path. *)
Theorem parseCard_roundtrip :
  (∀ c : Card, parseCard (cardToString c) = Some c) ∧
  (∀ (tok : jsstring) (g : N),
     (∀ su, suitGlyph su ≠ [g]) ∨ (∀ r, rankToken r ≠ tok) →
     parseCard (tok ++ [g]) = None) ∧
  (∀ s : jsstring, (∀ c, s ≠ cardToString c) → parseCard s = None).
Proof.
  split_and!.
  - by intros [[] []].
  - intros tok g H. rewrite parseCard_snoc. destruct H as [H|H].
    + by rewrite includes_suit_None.
    + destruct (includes_suit _ _); [|done]. by rewrite includes_rank_None.
  - intros s H. destruct (parseCard s) as [c|] eqn:Hp; [|done].
    apply parseCard_Some in Hp. by destruct (H c).
Qed.

(** ** Combination detector *)

Global Instance allEqualRank_perm : Proper ((≡ₚ) ==> iff) allEqualRank.
Proof.
  intros l k Hp. unfold allEqualRank.
  split; intros H a b Ha Hb; apply H; by (rewrite Hp || rewrite <-Hp).
Qed.

Lemma everySameRank_spec l : everySameRank l = true ↔ allEqualRank l.
Proof.
  unfold everySameRank, allEqualRank. destruct l as [|x l].
  { split; [|done]. by intros _ a b ?%elem_of_nil. }
  rewrite at_index_0. simpl (rank <$> Some x).
  rewrite <-Is_true_true, forallb_True, Forall_forall. split.
  - intros H a b Ha Hb.
    apply H, bool_decide_unpack in Ha. apply H, bool_decide_unpack in Hb. congruence.
  - intros H c Hc. apply bool_decide_pack. f_equal. apply H; [done|]. by left.
Qed.

Lemma length_remove_dups_le {A} `{EqDecision A} (l : list A) :
  (length (remove_dups l) ≤ length l)%nat.
Proof.
  induction l as [|x l IH]; simpl; [done|].
  destruct (decide_rel _ x l); simpl; lia.
Qed.

(** [new Set(ranks).size === ranks.length] says that no rank repeats. *)
Lemma length_remove_dups_NoDup {A} `{EqDecision A} (l : list A) :
  length (remove_dups l) = length l ↔ NoDup l.
Proof.
  induction l as [|x l IH]; simpl.
  { split; [constructor|done]. }
  pose proof (length_remove_dups_le l).
  destruct (decide_rel _ x l) as [Hin|Hin]; simpl.
  - split; [lia|]. by intros [? _]%NoDup_cons.
  - rewrite NoDup_cons. split.
    + intros [=]. split; [done|]. by apply IH.
    + intros [_ ?]. f_equal. by apply IH.
Qed.

Lemma consecutiveFrom_spec ranks idxs :
  consecutiveFrom ranks idxs = true ↔
  Forall (λ i, rankIndexAt ranks i = rankIndexAt ranks (i - 1) + 1) idxs.
Proof.
  induction idxs as [|i idxs IH]; simpl.
  { split; [constructor|done]. }
  rewrite Forall_cons.
  destruct (decide (_ ≠ _)) as [Hne|Heq].
  - split; [done|]. by intros [? _].
  - apply dec_stable in Heq. rewrite IH. by split; [|intros [_ ?]].
Qed.

Lemma rankIndexAt_fmap (l : list Card) (i : nat) c :
  l !! i = Some c → rankIndexAt (rank <$> l) (Z.of_nat i) = rankIndex (rank c).
Proof.
  intros H. unfold rankIndexAt. by rewrite at_index_nat, list_lookup_fmap, H.
Qed.

Lemma consecutiveFrom_run (l : list Card) :
  consecutiveFrom (rank <$> l) (seqZ 1 (Z.of_nat (length (rank <$> l)) - 1)) = true ↔
  consecutiveRun l.
Proof.
  rewrite consecutiveFrom_spec, Forall_seqZ, length_fmap. unfold consecutiveRun. split.
  - intros H i a b Ha Hb.
    apply lookup_lt_Some in Hb as Hlt.
    specialize (H (Z.of_nat (S i))). 
    rewrite (rankIndexAt_fmap _ _ _ Hb) in H.
    replace (Z.of_nat (S i) - 1) with (Z.of_nat i) in H by lia.
    rewrite (rankIndexAt_fmap _ _ _ Ha) in H. apply H. lia.
  - intros H z Hz.
    destruct (lookup_lt_is_Some_2 l (Z.to_nat z)) as [b Hb]; [lia|].
    destruct (lookup_lt_is_Some_2 l (Z.to_nat (z - 1))) as [a Ha]; [lia|].
    replace z with (Z.of_nat (Z.to_nat z)) at 1 by lia.
    replace (z - 1) with (Z.of_nat (Z.to_nat (z - 1))) by lia.
    rewrite (rankIndexAt_fmap _ _ _ Hb), (rankIndexAt_fmap _ _ _ Ha).
    apply (H (Z.to_nat (z - 1))); [done|].
    by replace (S (Z.to_nat (z - 1))) with (Z.to_nat z) by lia.
Qed.

Lemma consecutiveRun_cons x y l :
  consecutiveRun (x :: y :: l) →
  rankIndex (rank y) = rankIndex (rank x) + 1 ∧ consecutiveRun (y :: l).
Proof.
  intros H. split; [by apply (H 0%nat)|].
  intros i a b Ha Hb. by apply (H (S i)).
Qed.

Lemma consecutiveRun_above x l :
  consecutiveRun (x :: l) →
  Forall (λ d, rankIndex (rank x) < rankIndex (rank d)) l.
Proof.
  revert x. induction l as [|y l IH]; intros x H; [constructor|].
  apply consecutiveRun_cons in H as [Hxy Hl].
  constructor; [lia|].
  eapply Forall_impl; [by apply IH|]. simpl. intros; lia.
Qed.

Lemma consecutiveRun_sorted l : consecutiveRun l → StronglySorted cardLe l.
Proof.
  induction l as [|x l IH]; intros H; [constructor|].
  constructor.
  - apply IH. destruct l as [|y l]; [by intros [|?] ??|].
    by apply consecutiveRun_cons in H as [_ ?].
  - eapply Forall_impl; [by apply consecutiveRun_above|]. intros d ?. by left.
Qed.

(** On the sorted cards, [isStraight] recognises exactly the runs of
    length at least 3. *)
Lemma isStraight_spec raw :
  isStraight (sortCardsByRankSuit raw) = true ↔ (3 ≤ length raw)%nat ∧ isRun raw.
Proof.
  pose proof (sortCards_perm raw) as Hp. pose proof (sortCards_length raw) as Hl.
  unfold isStraight, isRun. rewrite Hl.
  destruct (decide (length raw < 3)%nat) as [?|Hlen].
  { split; [done|]. intros [? _]. lia. }
  destruct (existsb _ _) eqn:H2.
  { split; [done|]. intros (_ & _ & Hno & _).
    apply existsb_exists in H2 as (r & Hin & ->%bool_decide_eq_true).
    apply list_elem_of_In, list_elem_of_fmap in Hin as (c & Hr & Hc).
    rewrite Hp in Hc. by destruct (Hno c Hc). }
  assert (∀ c, c ∈ raw → rank c ≠ R2) as Hno.
  { intros c Hc Hr. apply not_true_iff_false in H2. apply H2.
    apply existsb_exists. exists R2. split; [|by apply bool_decide_eq_true].
    apply list_elem_of_In, list_elem_of_fmap. exists c. by rewrite Hp. }
  destruct (decide (length (remove_dups _) ≠ _)) as [Hd|Hd].
  { split; [done|]. intros (_ & Hnd & _). destruct Hd.
    apply length_remove_dups_NoDup. by rewrite Hp. }
  apply dec_stable, length_remove_dups_NoDup in Hd. rewrite Hp in Hd.
  rewrite consecutiveFrom_run. split.
  - intros Hc. split; [lia|]. split_and!; [done..|]. by eexists.
  - intros (_ & _ & _ & l & Hl' & Hc).
    by rewrite (sortCards_unique raw l Hl' (consecutiveRun_sorted _ Hc)).
Qed.

Lemma element_0 {A} (x : A) (l : list A) : element (x :: l) 0 = Ret x.
Proof. reflexivity. Qed.

Lemma element_1 {A} (x y : A) (l : list A) : element (x :: y :: l) 1 = Ret y.
Proof. reflexivity. Qed.

Lemma cardLe_rankIndex a b : cardLe a b → rankIndex (rank a) ≤ rankIndex (rank b).
Proof. intros [?|[-> _]]; lia. Qed.

(** [highestRank] returns on a non-empty hand, with the highest rank. *)
Lemma highestRank_spec cs :
  cs ≠ [] → ∃ r, highestRank cs = Ret r ∧ highestRankOf cs r.
Proof.
  intros Hne. destruct (sortCards_last_is_Some cs Hne) as [c Hc].
  exists (rank c). unfold highestRank, element.
  rewrite <-(sortCards_length cs), at_index_last, Hc. split; [done|].
  apply sortCards_last in Hc as [Hin Hmax]. split; [by exists c|].
  intros d Hd. by apply cardLe_rankIndex, Hmax.
Qed.

Global Instance highestRankOf_perm : Proper ((≡ₚ) ==> (=) ==> iff) highestRankOf.
Proof.
  intros l k Hp r ? <-. unfold highestRankOf.
  split; intros [(c & Hc & Hr) Hmax]; (split; [exists c; split; [|done]|intros d Hd; apply Hmax]);
    by (rewrite Hp || rewrite <-Hp).
Qed.

Lemma element_0_ne {A} (l : list A) : l ≠ [] → ∃ x, element l 0 = Ret x ∧ x ∈ l.
Proof. destruct l as [|x l]; [done|]. intros _. exists x. split; [done|by left]. Qed.

Lemma groupOf_intro ty raw cs c0 :
  cs ≡ₚ raw → allEqualRank raw → c0 ∈ cs →
  groupOf ty raw (Some (mkCombo ty cs (rank c0))).
Proof.
  intros Hp Hall Hc0. eexists. split_and!; [done..|]. simpl.
  intros x Hx. apply Hall; [done|]. by rewrite <-Hp.
Qed.

Lemma allEqualRank_two a b : allEqualRank [a; b] ↔ rank a = rank b.
Proof.
  split.
  - intros H. apply H; [by left|by right; left].
  - intros H x y Hx Hy.
    apply elem_of_cons in Hx as [Hx|Hx%list_elem_of_singleton];
      apply elem_of_cons in Hy as [Hy|Hy%list_elem_of_singleton]; congruence.
Qed.

(** Splits a statement by the number of cards and discards the branches
    whose length or shape premise contradicts the context. *)
Ltac by_length :=
  split_and!; intros; try lia; split_and?; intros; try done; try tauto.

(** C1.  [detectCombo] returns on every list of cards, and classifies it by
    its number of cards: none for 0; Single for 1; Pair for 2 cards of
    equal rank and none otherwise; for 3 cards Triple when all ranks are
    equal, else Straight when the cards are a run, else none; for 4 cards
    Bomb when all ranks are equal, else Straight when a run, else none;
    for 5 or more Straight when a run and none otherwise.  The primary
    rank is the shared rank of a Single, Pair, Triple or Bomb and the rank
    of the highest card of a Straight; the cards of the combination are
    the rank-then-suit sorted sequence of the input. *)
Theorem detectCombo_classifies (raw : list Card) :
  ∃ res, detectCombo raw = Ret res ∧
    (∀ c, res = Some c → cards c = sortCardsByRankSuit raw ∧ sortedFrom raw (cards c)) ∧
    (length raw = 0%nat → res = None) ∧
    (length raw = 1%nat → groupOf Single raw res) ∧
    (length raw = 2%nat →
       (allEqualRank raw → groupOf Pair raw res) ∧
       (¬ allEqualRank raw → res = None)) ∧
    (length raw = 3%nat →
       (allEqualRank raw → groupOf Triple raw res) ∧
       (¬ allEqualRank raw → isRun raw → straightOf raw res) ∧
       (¬ allEqualRank raw → ¬ isRun raw → res = None)) ∧
    (length raw = 4%nat →
       (allEqualRank raw → groupOf Bomb4 raw res) ∧
       (¬ allEqualRank raw → isRun raw → straightOf raw res) ∧
       (¬ allEqualRank raw → ¬ isRun raw → res = None)) ∧
    ((5 ≤ length raw)%nat →
       (isRun raw → straightOf raw res) ∧
       (¬ isRun raw → res = None)).
Proof.
  pose proof (sortCards_perm raw) as Hp.
  pose proof (sortCards_length raw) as Hl.
  pose proof (sortCards_sorted raw) as Hs.
  pose proof (isStraight_spec raw) as Hstr.
  assert (everySameRank (sortCardsByRankSuit raw) = true ↔ allEqualRank raw) as Hgrp.
  { by rewrite everySameRank_spec, Hp. }
  assert (sortCardsByRankSuit raw ≠ [] →
          ∃ r, highestRank (sortCardsByRankSuit raw) = Ret r ∧ highestRankOf raw r) as Hhi.
  { intros Hne. destruct (highestRank_spec _ Hne) as (r & ? & Hr).
    exists r. split; [done|]. by rewrite <-Hp. }
  pose proof (element_0_ne (sortCardsByRankSuit raw)) as H0.
  unfold detectCombo. set (cs := sortCardsByRankSuit raw) in *.
  assert (∀ ty r, ∀ c, Some (mkCombo ty cs r) = Some c →
            cards c = cs ∧ sortedFrom raw (cards c)) as Hsorted.
  { intros ty r c [= <-]. by simpl. }
  destruct (decide (length cs = 0%nat)) as [Hn0|Hn0].
  { eexists. split; [done|]. split; [done|]. by_length. }
  destruct H0 as (c0 & Hc0 & Hin0); [by intros ->|]. rewrite Hc0.
  destruct Hhi as (r & Hr & Hhi); [by intros Hnil; rewrite Hnil in Hn0|]. rewrite Hr. clear Hr.
  simpl.
  destruct (decide (length cs = 1%nat)) as [Hn1|Hn1].
  { eexists. split; [done|]. split; [by apply Hsorted|].
    by_length. apply groupOf_intro; [done| |done].
    destruct raw as [|x [|??]]; simpl in *; try lia.
    intros a b ->%list_elem_of_singleton ->%list_elem_of_singleton. done. }
  destruct (decide (length cs = 2%nat)) as [Hn2|Hn2].
  { assert (∃ c1, cs = [c0; c1]) as [c1 Hcs].
    { clearbody cs. destruct cs as [|a [|b [|??]]]; try done.
      rewrite element_0 in Hc0. injection Hc0 as ->. by exists b. }
    assert (element cs 1 = Ret c1) as -> by (by rewrite Hcs). simpl.
    assert (allEqualRank raw ↔ rank c0 = rank c1) as Htwo.
    { by rewrite <-Hp, Hcs, allEqualRank_two. }
    destruct (decide (rank c0 = rank c1)) as [Heq|Hne].
    - eexists. split; [done|]. split; [by apply Hsorted|].
      by_length. by apply groupOf_intro.
    - eexists. split; [done|]. split; [done|].
      by_length. }
  destruct (decide (length cs = 3%nat)) as [Hn3|Hn3].
  { destruct (everySameRank cs) eqn:Hsame.
    - assert (allEqualRank raw) as Hall by (by apply Hgrp).
      eexists. split; [done|]. split; [by apply Hsorted|].
      by_length. by apply groupOf_intro.
    - assert (¬ allEqualRank raw) as Hnall by (by intros ?%Hgrp).
      destruct (isStraight cs) eqn:Hrun.
      + assert (isRun raw) as Hrun' by (by apply Hstr).
        eexists. split; [done|]. split; [by apply Hsorted|].
        by_length. by eexists.
      + assert (¬ isRun raw) as Hnrun.
        { intros ?. assert (false = true); [|done]. apply Hstr. split; [lia|done]. }
        eexists. split; [done|]. split; [done|]. by_length. }
  destruct (bool_decide (length cs = 4%nat) && everySameRank cs) eqn:Hbomb.
  { apply andb_true_iff in Hbomb as [Hn4%bool_decide_eq_true Hsame%Hgrp].
    eexists. split; [done|]. split; [by apply Hsorted|].
    by_length. by apply groupOf_intro. }
  assert (length raw = 4%nat → ¬ allEqualRank raw) as Hnall.
  { intros Hn4 Hall%Hgrp. rewrite Hall, andb_true_r in Hbomb.
    apply bool_decide_eq_false in Hbomb. lia. }
  destruct (isStraight cs) eqn:Hrun.
  - assert (isRun raw) as Hrun' by (by apply Hstr).
    eexists. split; [done|]. split; [by apply Hsorted|].
    by_length; by eexists.
  - assert (¬ isRun raw) as Hnrun.
    { intros ?. assert (false = true); [|done]. apply Hstr. split; [lia|done]. }
    eexists. split; [done|]. split; [done|]. by_length.
Qed.

(** The detector on the sample hands of the specification. *)
Example detectCombo_pair :
  detectCombo [mkCard R3 Spade; mkCard R3 Heart] =
    Ret (Some (mkCombo Pair [mkCard R3 Heart; mkCard R3 Spade] R3)).
Proof. reflexivity. Qed.

Example detectCombo_straight :
  detectCombo [mkCard R3 Spade; mkCard R4 Spade; mkCard R5 Spade] =
    Ret (Some (mkCombo Straight [mkCard R3 Spade; mkCard R4 Spade; mkCard R5 Spade] R5)).
Proof. reflexivity. Qed.

Example detectCombo_no_two_in_straight :
  detectCombo [mkCard R2 Spade; mkCard R3 Heart; mkCard R4 Club] = Ret None.
Proof. reflexivity. Qed.

Example detectCombo_bomb :
  detectCombo [mkCard R9 Spade; mkCard R9 Heart; mkCard R9 Diamond; mkCard R9 Club] =
    Ret (Some (mkCombo Bomb4
                 [mkCard R9 Club; mkCard R9 Diamond; mkCard R9 Heart; mkCard R9 Spade] R9)).
Proof. reflexivity. Qed.

(** ** Combination comparator *)

Lemma sgn_ordering p n : Z.sgn (n - p) = ordering p n.
Proof. unfold ordering. destruct (Z.compare_spec p n); lia. Qed.

Lemma ordering_greater p n : ordering p n = 1 ↔ p < n.
Proof. unfold ordering. destruct (Z.compare_spec p n); split; (lia || done). Qed.

Lemma ordering_equal p n : ordering p n = 0 ↔ p = n.
Proof. unfold ordering. destruct (Z.compare_spec p n); split; (lia || done). Qed.

Lemma highestCard_unique cs c d : highestCard cs c → highestCard cs d → c = d.
Proof. intros [Hc Hcmax] [Hd Hdmax]. apply (anti_symm cardLe); auto. Qed.

Lemma highestCard_sorted_last cs c :
  highestCard cs c →
  at_index (sortCardsByRankSuit cs) (Z.of_nat (length cs) - 1) = Some c.
Proof.
  intros Hc. rewrite <-(sortCards_length cs), at_index_last.
  destruct (sortCards_last_is_Some cs) as [d Hd].
  { intros ->. destruct Hc as [Hc _]. by apply elem_of_nil in Hc. }
  rewrite Hd. f_equal. apply sortCards_last in Hd. by eapply highestCard_unique.
Qed.

Lemma compareRankThenSuit_spec prev next :
  (primaryRank prev ≠ primaryRank next →
     compareRankThenSuit prev next = Ret (rankOrder (primaryRank prev) (primaryRank next))) ∧
  (primaryRank prev = primaryRank next →
     ∀ pm nm, highestCard (cards prev) pm → highestCard (cards next) nm →
       compareRankThenSuit prev next = Ret (suitOrder (suit pm) (suit nm))).
Proof.
  unfold compareRankThenSuit, rankOrder, suitOrder. rewrite !sgn_ordering. split.
  - intros Hne. destruct (decide (_ ≠ 0)) as [|Heq]; [done|].
    apply dec_stable, ordering_equal, (inj rankIndex) in Heq. done.
  - intros Heq pm nm Hpm Hnm. rewrite Heq.
    destruct (decide (_ ≠ 0)) as [Hne|_].
    { destruct Hne. by apply ordering_equal. }
    rewrite (highestCard_sorted_last _ _ Hpm), (highestCard_sorted_last _ _ Hnm).
    by rewrite sgn_ordering.
Qed.

(** C2.  [compareCombos] makes the five checks in order.  (1) Against a
    Bomb, the result is greater exactly when [next] is a Bomb of strictly
    higher primary rank, every other [next] that is not a Bomb is less, and
    between Bombs the result is the rank-order comparison.  (2) Otherwise a
    Bomb is greater.  (3) Otherwise a difference of type or of number of
    cards gives less (so never equal).  (4) Otherwise different primary
    ranks give their rank-order comparison.  (5) At equal primary rank the
    result is the suit-order comparison of the highest cards of the two
    combinations. *)
Theorem compareCombos_checks (prev next : Combo) :
  (type prev = Bomb4 →
     ∃ z, compareCombos prev next = Ret z ∧
       (z = 1 ↔ type next = Bomb4 ∧
                rankIndex (primaryRank prev) < rankIndex (primaryRank next)) ∧
       (type next = Bomb4 → z = rankOrder (primaryRank prev) (primaryRank next)) ∧
       (type next ≠ Bomb4 → z = -1)) ∧
  (type prev ≠ Bomb4 → type next = Bomb4 → compareCombos prev next = Ret 1) ∧
  (type prev ≠ Bomb4 → type next ≠ Bomb4 →
     type prev ≠ type next ∨ length (cards prev) ≠ length (cards next) →
     compareCombos prev next = Ret (-1)) ∧
  (type prev ≠ Bomb4 → type next ≠ Bomb4 →
     type prev = type next → length (cards prev) = length (cards next) →
     primaryRank prev ≠ primaryRank next →
     compareCombos prev next = Ret (rankOrder (primaryRank prev) (primaryRank next))) ∧
  (type prev ≠ Bomb4 → type next ≠ Bomb4 →
     type prev = type next → length (cards prev) = length (cards next) →
     primaryRank prev = primaryRank next →
     ∀ pm nm, highestCard (cards prev) pm → highestCard (cards next) nm →
       compareCombos prev next = Ret (suitOrder (suit pm) (suit nm))).
Proof.
  destruct (compareRankThenSuit_spec prev next) as [Hrank Hsuit].
  unfold compareCombos. split_and!.
  - intros Hp. rewrite decide_True by done.
    destruct (decide (type next = Bomb4)) as [Hn|Hn].
    + eexists. split; [done|]. rewrite sgn_ordering. split_and!; [|done..].
      unfold rankOrder. rewrite ordering_greater. tauto.
    + eexists. split; [done|]. split_and!; [|done..]. split; [done|tauto].
  - intros Hp Hn. by rewrite decide_False, decide_True by done.
  - intros Hp Hn Hmis. rewrite !decide_False by done.
    destruct (decide (type prev ≠ type next)) as [|Hty]; [done|].
    apply dec_stable in Hty. destruct Hmis as [?|Hlen]; [done|].
    destruct (decide (type prev = Straight)); by rewrite decide_True.
  - intros Hp Hn Hty Hlen Hpr. rewrite !decide_False by done.
    rewrite (decide_False (P := type prev ≠ type next)) by (by intros []).
    destruct (decide (type prev = Straight));
      rewrite decide_False by (by intros []); auto.
  - intros Hp Hn Hty Hlen Hpr pm nm Hpm Hnm. rewrite !decide_False by done.
    rewrite (decide_False (P := type prev ≠ type next)) by (by intros []).
    destruct (decide (type prev = Straight));
      rewrite decide_False by (by intros []); auto.
Qed.

(** ** Legality check *)

Lemma sameCard_spec c h : sameCard c h = true ↔ h = c.
Proof.
  unfold sameCard. rewrite andb_true_iff, !bool_decide_eq_true.
  destruct c, h; simpl. split; [by intros [-> ->]|by intros [= -> ->]].
Qed.

Lemma findIndex_sameCard c hand :
  ((c ∉ hand) ∧ findIndex (sameCard c) hand = -1) ∨
  (∃ i : nat, findIndex (sameCard c) hand = Z.of_nat i ∧ hand !! i = Some c).
Proof.
  unfold findIndex.
  destruct (list_find _ hand) as [[i x]|] eqn:Hf.
  - right. exists i. split; [done|].
    apply list_find_Some in Hf as (Hi & Hx%sameCard_spec & _). by subst.
  - left. split; [|done]. intros Hin.
    apply list_find_None in Hf. eapply Forall_forall in Hf; [|done].
    apply Hf. by apply sameCard_spec.
Qed.

Lemma copies_cons c x l :
  copies c (x :: l) = ((if decide (x = c) then 1 else 0) + copies c l)%nat.
Proof. unfold copies. simpl. by destruct (Card_eq_dec x c), (decide (x = c)). Qed.

Lemma copies_perm c l k : l ≡ₚ k → copies c l = copies c k.
Proof. intros Hp. unfold copies. by apply Permutation_count_occ. Qed.

Lemma copies_zero c l : c ∉ l → copies c l = 0%nat.
Proof. intros H. apply count_occ_not_In. by rewrite <-list_elem_of_In. Qed.

Lemma copies_pos c l : c ∈ l → (0 < copies c l)%nat.
Proof. intros H. apply count_occ_In. by rewrite <-list_elem_of_In. Qed.

Lemma copies_elem_of c l : (0 < copies c l)%nat → c ∈ l.
Proof. intros H. apply list_elem_of_In. by eapply count_occ_In. Qed.

Lemma copies_delete c x l (i : nat) :
  l !! i = Some x →
  copies c l = ((if decide (x = c) then 1 else 0) + copies c (delete i l))%nat.
Proof.
  intros H. rewrite <-copies_cons. by apply copies_perm, delete_Permutation.
Qed.

(** The membership loop succeeds exactly when no card is missing. *)
Lemma takeFromHand_None hand proposal :
  takeFromHand hand proposal = None ↔ missingFrom hand proposal.
Proof.
  revert hand. induction proposal as [|c cs IH]; intros hand; simpl.
  { split; [done|]. intros [x Hx]. unfold copies in Hx. simpl in Hx. lia. }
  destruct (findIndex_sameCard c hand) as [[Hnin ->]|(i & -> & Hi)].
  - rewrite decide_True by lia. split; [|done]. intros _. exists c.
    rewrite copies_cons, decide_True, copies_zero by done. lia.
  - rewrite decide_False by lia. unfold splice1. rewrite Nat2Z.id, IH.
    unfold missingFrom. apply exist_proper. intros x.
    rewrite copies_cons, (copies_delete x c hand i Hi). lia.
Qed.

Lemma copies_NoDup c l : NoDup l → (copies c l ≤ 1)%nat.
Proof.
  induction 1 as [|x l Hx _ IH]; [unfold copies; simpl; lia|].
  rewrite copies_cons. destruct (decide (x = c)) as [->|]; [|lia].
  rewrite copies_zero by done. lia.
Qed.

(** For a set of cards, a card is missing when it simply is not in the hand. *)
Lemma missingFrom_set hand proposal :
  NoDup proposal → missingFrom hand proposal ↔ ∃ c, c ∈ proposal ∧ c ∉ hand.
Proof.
  intros Hnd. split.
  - intros [c Hc]. exists c. pose proof (copies_NoDup c _ Hnd). split.
    + apply copies_elem_of. lia.
    + intros ?%copies_pos. lia.
  - intros (c & Hin%copies_pos & Hnin%copies_zero). exists c. lia.
Qed.

(** The detector returns on every input; a detected combination has the
    sorted proposal as its cards, and the proposal is not empty. *)
Lemma detectCombo_returns raw :
  ∃ res, detectCombo raw = Ret res ∧
    ∀ c, res = Some c → cards c = sortCardsByRankSuit raw ∧ raw ≠ [].
Proof.
  unfold detectCombo. pose proof (sortCards_length raw) as Hl.
  destruct (decide (length (sortCardsByRankSuit raw) = 0%nat)) as [|Hn0]; [by eexists|].
  assert (raw ≠ []) as Hne by (intros ->; by apply Hn0).
  assert (sortCardsByRankSuit raw ≠ []) as Hsne by (intros Hnil; by rewrite Hnil in Hn0).
  destruct (element_0_ne _ Hsne) as (c0 & -> & _).
  destruct (highestRank_spec _ Hsne) as (r & -> & _). simpl.
  destruct (sortCardsByRankSuit raw) as [|a [|b rest]] eqn:Hs; [done| |].
  { eexists. split; [done|]. by intros c [= <-]. }
  rewrite element_1. simpl.
  repeat (case_decide || case_match); eexists; (split; [done|]); try done.
  all: by intros c [= <-].
Qed.

Lemma detectCombo_total raw : ∃ res, detectCombo raw = Ret res.
Proof. destruct (detectCombo_returns raw) as (res & ? & _). by exists res. Qed.

Lemma detectCombo_cards raw c :
  detectCombo raw = Ret (Some c) → cards c = sortCardsByRankSuit raw ∧ raw ≠ [].
Proof.
  intros H. destruct (detectCombo_returns raw) as (res & Hres & Hc).
  rewrite H in Hres. injection Hres as <-. by apply Hc.
Qed.

Lemma sgn_range z : Z.sgn z = -1 ∨ Z.sgn z = 0 ∨ Z.sgn z = 1.
Proof. destruct z; simpl; auto. Qed.

Lemma compareRankThenSuit_total prev next :
  cards prev ≠ [] → cards next ≠ [] →
  ∃ z, compareRankThenSuit prev next = Ret z ∧ (z = -1 ∨ z = 0 ∨ z = 1).
Proof.
  intros Hp Hn. unfold compareRankThenSuit.
  destruct (decide (_ ≠ 0)); [eexists; split; [done|apply sgn_range]|].
  rewrite <-(sortCards_length (cards prev)), <-(sortCards_length (cards next)), !at_index_last.
  destruct (sortCards_last_is_Some _ Hp) as [pm ->].
  destruct (sortCards_last_is_Some _ Hn) as [nm ->].
  eexists; split; [done|apply sgn_range].
Qed.

(** Against a non-empty [next], as every detected combination is, the
    comparison returns one of the three signs. *)
Lemma compareCombos_total prev next :
  cards next ≠ [] →
  ∃ z, compareCombos prev next = Ret z ∧ (z = -1 ∨ z = 0 ∨ z = 1).
Proof.
  intros Hn. unfold compareCombos.
  assert (length (cards prev) = length (cards next) → cards prev ≠ []) as Hp.
  { intros Hlen Hnil. rewrite Hnil in Hlen. by destruct (cards next). }
  repeat case_decide; try (by eexists; split; [done|auto using sgn_range]).
  all: apply compareRankThenSuit_total; [|done].
  all: by apply Hp.
Qed.

(** C3.  [isLegalMove] rejects with "game finished" when the game is
    finished; else with "game not started" when it has not started; else
    with "not your turn" when the seat is not the current player; else,
    on the seat's hand, with "card not in hand" when some proposed card is
    missing from the hand; else with "invalid combo" when the detector
    returns none.  When all these checks pass, the move is accepted with
    the detected combination if there is no last combination or if the
    comparator says that the detected combination beats it (result 1), and
    is otherwise rejected with "does not beat last combo".  For a proposal
    without repeated cards, a card is missing when it is not in the hand. *)
Theorem isLegalMove_spec (st : GameState) (seat : PlayerId) (cs : list Card) :
  (finished st = true →
     isLegalMove st seat cs = Ret (rejected "game finished")) ∧
  (finished st = false → started st = false →
     isLegalMove st seat cs = Ret (rejected "game not started")) ∧
  (finished st = false → started st = true → currentPlayer st ≠ Num seat →
     isLegalMove st seat cs = Ret (rejected "not your turn")) ∧
  (finished st = false → started st = true → currentPlayer st = Num seat →
     ∀ hand, at_index (hands st) seat = Some hand →
       (missingFrom hand cs →
          isLegalMove st seat cs = Ret (rejected "card not in hand")) ∧
       (¬ missingFrom hand cs →
          ∃ res, detectCombo cs = Ret res ∧
            match res with
            | None => isLegalMove st seat cs = Ret (rejected "invalid combo")
            | Some c =>
                match lastCombo st with
                | None => isLegalMove st seat cs = Ret (accepted c)
                | Some last =>
                    ∃ z, compareCombos last c = Ret z ∧
                      (z = 1 → isLegalMove st seat cs = Ret (accepted c)) ∧
                      (z ≠ 1 → isLegalMove st seat cs =
                                 Ret (mkCheck false (Some "does not beat last combo"%string)
                                              (Some c)))
                end
            end) ∧
       (NoDup cs → missingFrom hand cs ↔ ∃ c, c ∈ cs ∧ c ∉ hand)).
Proof.
  unfold isLegalMove. split_and!.
  - by intros ->.
  - by intros -> ->.
  - intros -> -> Hne. simpl. rewrite decide_True; [done|congruence].
  - intros -> -> Hcur hand Hhand. simpl.
    rewrite decide_False by (intros Hne; by rewrite Hcur in Hne).
    unfold element. rewrite Hhand. simpl. split_and!.
    + intros Hm%takeFromHand_None. by rewrite Hm.
    + intros Hm. destruct (takeFromHand hand cs) eqn:Htake.
      2: { by apply takeFromHand_None in Htake. }
      destruct (detectCombo cs) as [[c|]|] eqn:Hdet.
      3: { destruct (detectCombo_total cs) as [? Hret]. by rewrite Hret in Hdet. }
      2: { by eexists. }
      eexists. split; [done|]. simpl.
      destruct (lastCombo st) as [last|]; [|done].
      destruct (detectCombo_cards _ _ Hdet) as [Hcards Hne].
      destruct (compareCombos_total last c) as (z & Hz & Hrange).
      { rewrite Hcards. intros Hnil. apply (f_equal length) in Hnil.
        rewrite sortCards_length in Hnil. by destruct cs. }
      exists z. rewrite Hz. simpl. split; [done|]. split.
      * intros ->. by rewrite decide_True.
      * intros Hz1. rewrite decide_False by lia. done.
    + apply missingFrom_set.
Qed.

(** What an accepted move tells about the state and the proposal. *)
Lemma isLegalMove_ok_inv st seat cs r :
  isLegalMove st seat cs = Ret r → ok r = true →
  finished st = false ∧ started st = true ∧ currentPlayer st = Num seat ∧
  ∃ hand c, at_index (hands st) seat = Some hand ∧ ¬ missingFrom hand cs ∧
            detectCombo cs = Ret (Some c) ∧ r = accepted c.
Proof.
  unfold isLegalMove. intros Hr Hok.
  destruct (finished st); [by injection Hr as <-|].
  destruct (started st); [|by injection Hr as <-]. simpl in Hr.
  destruct (decide (Num seat ≠ currentPlayer st)) as [|Hcur]; [by injection Hr as <-|].
  apply dec_stable in Hcur. unfold element in Hr.
  destruct (at_index (hands st) seat) as [hand|] eqn:Hhand; [|done]. simpl in Hr.
  destruct (takeFromHand hand cs) eqn:Htake; [|by injection Hr as <-].
  destruct (detectCombo cs) as [[c|]|] eqn:Hdet; simpl in Hr; [|by injection Hr as <-|done].
  split_and!; [done..|]. exists hand, c. split_and!; [done| |done|].
  { intros Hm%takeFromHand_None. congruence. }
  destruct (lastCombo st) as [last|]; [|by injection Hr as <-].
  destruct (compareCombos last c) as [z|]; [|done]. simpl in Hr.
  destruct (decide (0 < z)); by injection Hr as <-.
Qed.

(** An accepted move beats the combination on the table. *)
Lemma isLegalMove_ok_beats st seat cs r last :
  isLegalMove st seat cs = Ret r → ok r = true → lastCombo st = Some last →
  ∃ c z, detectCombo cs = Ret (Some c) ∧ compareCombos last c = Ret z ∧ 0 < z.
Proof.
  unfold isLegalMove. intros Hr Hok Hlast. rewrite Hlast in Hr.
  destruct (finished st); [by injection Hr as <-|].
  destruct (started st); [|by injection Hr as <-]. simpl in Hr.
  destruct (decide (Num seat ≠ currentPlayer st)); [by injection Hr as <-|].
  destruct (element (hands st) seat) as [hand|]; [|done]. simpl in Hr.
  destruct (takeFromHand hand cs); [|by injection Hr as <-].
  destruct (detectCombo cs) as [[c|]|]; [|by injection Hr as <-|done].
  rewrite bind_Ret in Hr.
  destruct (compareCombos last c) as [z|] eqn:Hz; [|done]. rewrite bind_Ret in Hr.
  destruct (decide (0 < z)); [|by injection Hr as <-].
  exists c, z. by split_and!.
Qed.

(** With a hand for the seat, the check returns. *)
Lemma isLegalMove_total st seat cs hand :
  at_index (hands st) seat = Some hand → ∃ r, isLegalMove st seat cs = Ret r.
Proof.
  intros Hhand. unfold isLegalMove.
  destruct (finished st); [by eexists|].
  destruct (started st); [|by eexists]. simpl.
  destruct (decide (Num seat ≠ currentPlayer st)); [by eexists|].
  unfold element. rewrite Hhand. simpl.
  destruct (takeFromHand hand cs); [|by eexists].
  destruct (detectCombo cs) as [[c|]|] eqn:Hdet; simpl.
  3: { destruct (detectCombo_total cs) as [? Hret]. by rewrite Hret in Hdet. }
  2: { by eexists. }
  destruct (lastCombo st) as [last|]; [|by eexists].
  destruct (detectCombo_cards _ _ Hdet) as [Hcards Hne].
  destruct (compareCombos_total last c) as (z & -> & _).
  { rewrite Hcards. intros Hnil. apply (f_equal length) in Hnil.
    rewrite sortCards_length in Hnil. by destruct cs. }
  simpl. destruct (decide (0 < z)); by eexists.
Qed.

(** When it is the turn of a seat for which the state has no hand, the
    check reads a property of [undefined]. *)
Lemma isLegalMove_no_hand st seat cs :
  finished st = false → started st = true → currentPlayer st = Num seat →
  at_index (hands st) seat = None →
  isLegalMove st seat cs = Throw TypeError.
Proof.
  intros Hfin Hst Hcur Hnone. unfold isLegalMove, element.
  rewrite Hfin, Hst, Hcur, Hnone. simpl.
  by rewrite decide_False by (by intros []).
Qed.

(** C10, as stated, fails: a seat that proposes more copies of a card than
    it holds is not always answered with "card not in hand".  The earlier
    checks of [isLegalMove] come first; here the answer is "not your
    turn". *)
Lemma isLegalMove_duplicates_counterexample :
  ¬ (∀ st seat cs hand,
       at_index (hands st) seat = Some hand → missingFrom hand cs →
       isLegalMove st seat cs = Ret (rejected "card not in hand")).
Proof.
  intros H.
  specialize (H waitingSeatState 1 [mkCard R4 Spade; mkCard R4 Spade] [mkCard R4 Spade] eq_refl).
  assert (missingFrom [mkCard R4 Spade] [mkCard R4 Spade; mkCard R4 Spade]) as Hm.
  { exists (mkCard R4 Spade). vm_compute. lia. }
  specialize (H Hm). vm_compute in H. discriminate.
Qed.

(** C10, amended.  A proposal with more copies of some card than the
    seat's hand holds is never accepted; when the game has started, is not
    finished and it is the seat's turn, the answer is "card not in hand". *)
Theorem isLegalMove_duplicates (st : GameState) (seat : PlayerId) (cs hand : list Card) :
  at_index (hands st) seat = Some hand →
  missingFrom hand cs →
  (∃ r, isLegalMove st seat cs = Ret r ∧ ok r = false) ∧
  (finished st = false → started st = true → currentPlayer st = Num seat →
     isLegalMove st seat cs = Ret (rejected "card not in hand")).
Proof.
  intros Hhand Hm. split.
  - destruct (isLegalMove_total st seat cs hand Hhand) as [r Hr].
    exists r. split; [done|]. destruct (ok r) eqn:Hok; [|done].
    destruct (isLegalMove_ok_inv _ _ _ _ Hr Hok) as (_ & _ & _ & h & c & Hh & Hnm & _).
    rewrite Hhand in Hh. injection Hh as <-. done.
  - intros Hfin Hst Hcur. unfold isLegalMove. rewrite Hfin, Hst, Hcur. simpl.
    rewrite decide_False by (by intros []).
    unfold element. rewrite Hhand. simpl.
    apply takeFromHand_None in Hm. by rewrite Hm.
Qed.

Lemma isLegalMove_duplicates_witness :
  let st := {| players := 2;
               hands := [[mkCard R3 Spade]; [mkCard R4 Spade]];
               currentPlayer := Num 1;
               lastCombo := None;
               passesInRow := 0;
               started := true;
               finished := false |} in
  let cs := [mkCard R4 Spade; mkCard R4 Spade] in
  (∃ r, isLegalMove st 1 cs = Ret r ∧ ok r = false) ∧
  (finished st = false → started st = true → currentPlayer st = Num 1 →
     isLegalMove st 1 cs = Ret (rejected "card not in hand")).
Proof.
  intros st cs. apply (isLegalMove_duplicates st 1 cs [mkCard R4 Spade]).
  - reflexivity.
  - exists (mkCard R4 Spade). vm_compute. lia.
Defined.

(** ** Playing a move *)

Lemma at_index_insert {A} (l : list A) (i : Z) (x y : A) :
  at_index l i = Some x → at_index (<[Z.to_nat i := y]> l) i = Some y.
Proof.
  intros [Hi Hx]%at_index_Some. apply at_index_Some. split; [done|].
  apply list_lookup_insert_eq. by eapply lookup_lt_Some.
Qed.

Lemma at_index_insert_ne {A} (l : list A) (i j : Z) (y : A) :
  0 ≤ i → j ≠ i → at_index (<[Z.to_nat i := y]> l) j = at_index l j.
Proof.
  intros Hi Hne. unfold at_index. destruct (decide (j < 0)); [done|].
  apply list_lookup_insert_ne. lia.
Qed.

Lemma foldlM_cons {A B} (f : B → A → outcome B) acc x l :
  foldlM f acc (x :: l) = f acc x ≫= λ acc', foldlM f acc' l.
Proof. reflexivity. Qed.

Lemma removeFromHands_step seat hs hand c :
  at_index hs seat = Some hand →
  removeFromHands seat hs c =
    Ret (if decide (0 ≤ findIndex (sameCard c) hand)
         then <[Z.to_nat seat := splice1 (findIndex (sameCard c) hand) hand]> hs
         else hs).
Proof.
  intros Hhand. unfold removeFromHands, element. rewrite Hhand. simpl.
  by destruct (decide _).
Qed.

Lemma removeFromHands_loop seat cs : ∀ hs hand,
  at_index hs seat = Some hand →
  foldlM (removeFromHands seat) hs cs = Ret (<[Z.to_nat seat := removeCards hand cs]> hs).
Proof.
  induction cs as [|c cs IH]; intros hs hand Hhand.
  { simpl. f_equal. symmetry. apply list_insert_id. by apply at_index_Some in Hhand as [_ ?]. }
  rewrite foldlM_cons, (removeFromHands_step _ _ _ _ Hhand).
  change (removeCards hand (c :: cs)) with
    (removeCards (if decide (0 ≤ findIndex (sameCard c) hand)
                  then splice1 (findIndex (sameCard c) hand) hand else hand) cs).
  destruct (decide (0 ≤ findIndex (sameCard c) hand)) as [Hidx|Hidx].
  - change (Ret ?x ≫= ?k) with (k x). cbv beta.
    erewrite IH; [|by eapply at_index_insert]. by rewrite list_insert_insert_eq.
  - by apply IH.
Qed.

Lemma removeCards_sublist cs : ∀ hand, removeCards hand cs `sublist_of` hand.
Proof.
  induction cs as [|c cs IH]; intros hand; simpl; [done|].
  destruct (decide _); [|done].
  etrans; [apply IH|]. apply sublist_delete.
Qed.

Lemma missingFrom_perm hand cs cs' : cs ≡ₚ cs' → missingFrom hand cs ↔ missingFrom hand cs'.
Proof.
  intros Hp. unfold missingFrom. apply exist_proper. intros c.
  by rewrite (copies_perm c _ _ Hp).
Qed.

(** When no card is missing, the loop removes each card of the
    combination from the hand, once. *)
Lemma removeCards_perm cs : ∀ hand,
  ¬ missingFrom hand cs → hand ≡ₚ cs ++ removeCards hand cs.
Proof.
  induction cs as [|c cs IH]; intros hand Hm; simpl; [done|].
  destruct (findIndex_sameCard c hand) as [[Hnin _]|(i & -> & Hi)].
  { destruct Hm. exists c. rewrite copies_cons, decide_True, copies_zero by done. lia. }
  rewrite decide_True by lia. unfold splice1. rewrite Nat2Z.id.
  rewrite <-IH; [by apply delete_Permutation|].
  intros [x Hx]. apply Hm. exists x.
  rewrite copies_cons, (copies_delete x c hand i Hi). lia.
Qed.

Lemma js_rem_mod a b : 0 ≤ a → 0 < b → js_rem a b = Num (a `mod` b).
Proof.
  intros Ha Hb. unfold js_rem. rewrite decide_False by lia.
  f_equal. apply Z.rem_mod_nonneg; lia.
Qed.

(** C4.  When [isLegalMove] accepts a proposal of the seat with combination
    [c], in a state with a positive number of players, [applyMove] returns
    a state in which the seat's hand is the old hand with each card of the
    combination removed by value: the old hand is the combination's cards
    together with the new hand, the new hand keeps the order of the old
    one, and it is shorter by the size of the combination.  No other hand
    changes, [lastCombo] is the played combination, [passesInRow] is 0,
    [finished] holds exactly when the seat's hand became empty, and
    [currentPlayer] is [(seat + 1) mod players]. *)
Theorem applyMove_spec (st : GameState) (seat : PlayerId) (cs : list Card)
    (r : MoveCheck) (c : Combo) :
  isLegalMove st seat cs = Ret r → ok r = true → combo r = Some c →
  0 < players st →
  ∃ hand hand' st',
    at_index (hands st) seat = Some hand ∧
    applyMove st seat c = Ret st' ∧
    at_index (hands st') seat = Some hand' ∧
    hand ≡ₚ cards c ++ hand' ∧
    hand' `sublist_of` hand ∧
    length hand = (length (cards c) + length hand')%nat ∧
    length (hands st') = length (hands st) ∧
    (∀ other, other ≠ seat → at_index (hands st') other = at_index (hands st) other) ∧
    lastCombo st' = Some c ∧
    passesInRow st' = 0 ∧
    (finished st' = true ↔ hand' = []) ∧
    currentPlayer st' = Num ((seat + 1) `mod` players st) ∧
    players st' = players st ∧
    started st' = started st.
Proof.
  intros Hr Hok Hcombo Hplayers.
  destruct (isLegalMove_ok_inv _ _ _ _ Hr Hok) as (Hfin & _ & _ & hand & c' & Hhand & Hm & Hdet & ->).
  injection Hcombo as ->.
  destruct (detectCombo_cards _ _ Hdet) as [Hcards _].
  assert (¬ missingFrom hand (cards c)) as Hm'.
  { by rewrite Hcards, (missingFrom_perm hand _ cs (sortCards_perm cs)). }
  apply at_index_Some in Hhand as Hseat. destruct Hseat as [Hseat Hlook].
  exists hand, (removeCards hand (cards c)). eexists.
  unfold applyMove. rewrite (removeFromHands_loop _ _ _ _ Hhand). simpl.
  unfold element. rewrite (at_index_insert _ _ _ _ Hhand). simpl.
  pose proof (removeCards_perm _ _ Hm') as Hperm.
  split_and!; try done.
  - by eapply at_index_insert.
  - apply removeCards_sublist.
  - by rewrite Hperm at 1; rewrite length_app.
  - apply length_insert.
  - intros other Hne. by apply at_index_insert_ne.
  - destruct (decide (length _ = 0%nat)) as [Hlen|Hlen].
    + split; [|done]. intros _. by apply nil_length_inv.
    + rewrite Hfin. split; [done|]. intros Hnil. by rewrite Hnil in Hlen.
  - apply js_rem_mod; lia.
Qed.

Lemma applyMove_spec_witness :
  let st := {| players := 2;
               hands := [[mkCard R3 Spade; mkCard R3 Heart; mkCard R9 Club]; [mkCard R4 Spade]];
               currentPlayer := Num 0;
               lastCombo := None;
               passesInRow := 1;
               started := true;
               finished := false |} in
  let c := mkCombo Pair [mkCard R3 Heart; mkCard R3 Spade] R3 in
  ∃ hand hand' st',
    at_index (hands st) 0 = Some hand ∧
    applyMove st 0 c = Ret st' ∧
    at_index (hands st') 0 = Some hand' ∧
    hand ≡ₚ cards c ++ hand' ∧
    hand' `sublist_of` hand ∧
    length hand = (length (cards c) + length hand')%nat ∧
    length (hands st') = length (hands st) ∧
    (∀ other, other ≠ 0 → at_index (hands st') other = at_index (hands st) other) ∧
    lastCombo st' = Some c ∧
    passesInRow st' = 0 ∧
    (finished st' = true ↔ hand' = []) ∧
    currentPlayer st' = Num ((0 + 1) `mod` players st) ∧
    players st' = players st ∧
    started st' = started st.
Proof.
  intros st c.
  apply (applyMove_spec st 0 [mkCard R3 Spade; mkCard R3 Heart] (accepted c) c).
  - reflexivity.
  - reflexivity.
  - reflexivity.
  - simpl. lia.
Defined.

(** ** Passing *)


(** ** After the game has finished *)

(** C6, as stated, fails for [applyMove]: it has no check of [finished],
    and on a finished state it still removes the cards of the combination
    from the seat's hand. *)
Lemma applyMove_finished_counterexample :
  ¬ (∀ st seat c st',
       finished st = true → applyMove st seat c = Ret st' → hands st' = hands st).
Proof.
  intros H.
  specialize (H finishedState 1 (mkCombo Single [mkCard R4 Spade] R4) _ eq_refl eq_refl).
  discriminate H.
Qed.

(** C6, amended.  In a finished state [applyPass] returns the state
    itself, so every hand is as before, and [isLegalMove] rejects every
    proposal of every seat with "game finished": no move satisfies the
    precondition of [applyMove]. *)
Theorem finished_no_change (st : GameState) (seat : PlayerId) :
  finished st = true →
  applyPass st seat = st ∧
  hands (applyPass st seat) = hands st ∧
  ∀ cs, isLegalMove st seat cs = Ret (rejected "game finished").
Proof.
  intros Hfin. unfold applyPass, isLegalMove. rewrite Hfin. done.
Qed.

Lemma finished_no_change_witness :
  applyPass finishedState 1 = finishedState ∧
  hands (applyPass finishedState 1) = hands finishedState ∧
  ∀ cs, isLegalMove finishedState 1 cs = Ret (rejected "game finished").
Proof. apply (finished_no_change finishedState 1). reflexivity. Defined.

(** ** Dealing *)

Lemma dealFrom_spec n rest : ∀ i hs,
  0 < n → 0 ≤ i → length hs = Z.to_nat n →
  ∃ hs', dealFrom n i rest hs = Ret hs' ∧
    length hs' = length hs ∧
    ∀ seat h, 0 ≤ seat → at_index hs seat = Some h →
      at_index hs' seat = Some (h ++ dealtTo n seat i rest).
Proof.
  induction rest as [|c rest IH]; intros i hs Hn Hi Hlen; simpl.
  { exists hs. split_and!; [done..|]. intros seat h _ Hh. by rewrite app_nil_r. }
  rewrite js_rem_mod by lia.
  pose proof (Z.mod_pos_bound i n Hn) as Hk.
  destruct (lookup_lt_is_Some_2 hs (Z.to_nat (i `mod` n))) as [hk Hhk]; [lia|].
  assert (at_index hs (i `mod` n) = Some hk) as Hat.
  { apply at_index_Some. split; [lia|done]. }
  rewrite Hat.
  destruct (IH (i + 1) (<[Z.to_nat (i `mod` n) := hk ++ [c]]> hs)) as (hs' & Hhs' & Hlen' & Hseats);
    [lia|lia|by rewrite length_insert|].
  exists hs'. rewrite length_insert in Hlen'. split_and!; [done..|].
  intros seat h Hseat Hh.
  destruct (decide (i `mod` n = seat)) as [<-|Hne].
  - rewrite Hat in Hh. injection Hh as <-.
    rewrite (Hseats (i `mod` n) (hk ++ [c])); [|lia|by eapply at_index_insert].
    by rewrite <-app_assoc.
  - apply Hseats; [done|]. by rewrite at_index_insert_ne by (lia || done).
Qed.



(** ** Move heuristic *)

(** A loop whose every iteration returns and keeps an invariant returns,
    with the invariant. *)
Lemma foldlM_invariant {A B} (P : B → Prop) (f : B → A → outcome B) (l : list A) :
  (∀ acc x, x ∈ l → P acc → ∃ acc', f acc x = Ret acc' ∧ P acc') →
  ∀ acc, P acc → ∃ res, foldlM f acc l = Ret res ∧ P res.
Proof.
  induction l as [|x l IH]; intros Hf acc Hacc; [by exists acc|].
  rewrite foldlM_cons.
  destruct (Hf acc x) as (acc' & -> & Hacc'); [by left|done|].
  apply IH; [|done]. intros a y Hy. apply Hf. by right.
Qed.

Lemma mapM_outcome {A B} (Q : A → B → Prop) (f : A → outcome B) (l : list A) :
  (∀ x, x ∈ l → ∃ y, f x = Ret y ∧ Q x y) →
  ∃ ys, mapM f l = Ret ys ∧ Forall2 Q l ys.
Proof.
  induction l as [|x l IH]; intros Hf; [by exists []|].
  destruct (Hf x) as (y & Hy & HQ); [by left|].
  destruct IH as (ys & Hys & HQs); [intros z Hz; apply Hf; by right|].
  exists (y :: ys). split; [|by constructor].
  simpl. rewrite Hy. simpl. fold (mapM f l). by rewrite Hys.
Qed.

(** Sequencing: if the first computation returns with [P] and the rest
    returns with [Q] from every value with [P], the whole returns with [Q]. *)
Lemma bind_returns {A B} (P : A → Prop) (Q : B → Prop) (m : outcome A) (k : A → outcome B) :
  (∃ a, m = Ret a ∧ P a) →
  (∀ a, P a → ∃ b, k a = Ret b ∧ Q b) →
  ∃ b, (m ≫= k) = Ret b ∧ Q b.
Proof. intros (a & -> & Ha) Hk. rewrite bind_Ret. by apply Hk. Qed.

Lemma bind_total {A B} (m : outcome A) (k : A → outcome B) :
  (∃ a, m = Ret a) → (∀ a, ∃ b, k a = Ret b) → ∃ b, (m ≫= k) = Ret b.
Proof. intros [a ->] Hk. rewrite bind_Ret. apply Hk. Qed.

Section heuristic.
Context (st : GameState) (seat : PlayerId) (hand : list Card).
Hypothesis seat_hand : at_index (hands st) seat = Some hand.

Lemma tryMove_legal moves move :
  Forall (legalFor st seat) moves →
  ∃ moves', tryMove st seat moves move = Ret moves' ∧ Forall (legalFor st seat) moves'.
Proof using seat_hand.
  intros Hmoves. unfold tryMove.
  destruct (isLegalMove_total st seat move hand seat_hand) as [r Hr].
  rewrite Hr, bind_Ret.
  destruct (ok r) eqn:Hok; eexists; (split; [done|]); [|done].
  apply Forall_app. split; [done|]. constructor; [|done]. by exists r.
Qed.

Lemma getAllLegalMoves_legal :
  ∃ moves, getAllLegalMoves st seat = Ret moves ∧ Forall (legalFor st seat) moves.
Proof using seat_hand.
  unfold getAllLegalMoves, element. rewrite seat_hand, bind_Ret.
  eapply (bind_returns (Forall (legalFor st seat))).
  { apply foldlM_invariant; [|done]. intros; by apply tryMove_legal. }
  intros m1 H1. cbv zeta.
  eapply (bind_returns (Forall (legalFor st seat))).
  { apply foldlM_invariant; [|done]. intros acc e _ Hacc.
    destruct (decide _); [|by eexists].
    eapply (bind_returns (Forall (legalFor st seat))); [by apply tryMove_legal|].
    intros acc' Hacc'. destruct (decide _); [|by eexists]. by apply tryMove_legal. }
  intros m2 H2.
  eapply (bind_returns (Forall (legalFor st seat))).
  { apply foldlM_invariant; [|done]. intros; by apply tryMove_legal. }
  intros m3 H3.
  apply foldlM_invariant; [|done].
  intros acc e _ Hacc. destruct (decide _); [|by eexists]. by apply tryMove_legal.
Qed.

Lemma scoreOpeningMove_total move : ∃ z, scoreOpeningMove move (Some hand) = Ret z.
Proof.
  unfold scoreOpeningMove.
  apply bind_total; [|intros z].
  - destruct (decide (length move = 1%nat)) as [Hlen|Hlen].
    + destruct move as [|m0 [|??]]; try done. rewrite element_0, bind_Ret. by eexists.
    + repeat case_decide; by eexists.
  - destruct (detectCombo_total move) as [res ->]. rewrite bind_Ret.
    destruct res; [|by eexists]. destruct (decide _); by eexists.
Qed.

Lemma head_js_sort_elem_of {A} (cmp : A → A → Z) (l : list A) x :
  head (js_sort cmp l) = Some x → x ∈ l.
Proof. intros H. apply (elem_of_js_sort cmp). by eapply head_Some_elem_of. Qed.

Lemma scoresOf_elem_of moves scored p : scoresOf moves scored → p ∈ scored → p.1 ∈ moves.
Proof.
  intros Hscored [i Hi]%list_elem_of_lookup.
  destruct (Forall2_lookup_r _ _ _ _ _ Hscored Hi) as (m & Hm & ->).
  by eapply list_elem_of_lookup_2.
Qed.

Lemma selectBestOpeningMove_elem_of moves :
  ∃ res, selectBestOpeningMove moves st seat = Ret res ∧
    ((moves ≠ [] → is_Some res) ∧ ∀ m, res = Some m → m ∈ moves).
Proof using seat_hand.
  unfold selectBestOpeningMove. rewrite seat_hand.
  eapply (bind_returns (scoresOf moves)).
  { apply mapM_outcome. intros m _.
    destruct (scoreOpeningMove_total m) as [z ->]. rewrite bind_Ret. by eexists. }
  intros scored Hscored.
  destruct (js_sort byScoreDesc scored) as [|best rest] eqn:Hsort.
  - assert (scored = []) as ->.
    { apply (f_equal length) in Hsort. rewrite length_js_sort in Hsort. by destruct scored. }
    apply Forall2_nil_inv_r in Hscored as ->. eexists. split; [done|]. by split.
  - eexists. split; [done|]. split; [by eexists|]. intros m [= <-].
    apply (scoresOf_elem_of _ scored); [done|].
    apply (head_js_sort_elem_of byScoreDesc). by rewrite Hsort.
Qed.

Lemma scoreFollowingMove_total last move :
  ∃ p, scoreFollowingMove last move = Ret p ∧ p.1 = move.
Proof.
  unfold scoreFollowingMove.
  destruct (detectCombo move) as [[c|]|] eqn:Hdet.
  3: { destruct (detectCombo_total move) as [? Hret]. by rewrite Hret in Hdet. }
  2: { by eexists. }
  destruct (detectCombo_cards _ _ Hdet) as [Hcards Hne].
  destruct (compareCombos_total last c) as (z & Hz & _).
  { rewrite Hcards. intros Hnil. apply (f_equal length) in Hnil.
    rewrite sortCards_length in Hnil. by destruct move. }
  rewrite bind_Ret, Hz, bind_Ret. destruct (decide (z ≤ 0)); by eexists.
Qed.

(** A legal move against [last] is never scored as excluded. *)
Lemma scoreFollowingMove_legal last move p :
  lastCombo st = Some last → legalFor st seat move →
  scoreFollowingMove last move = Ret p → -1000 < p.2.
Proof.
  intros Hlast (r & Hr & Hok) Hp.
  destruct (isLegalMove_ok_beats _ _ _ _ _ Hr Hok Hlast) as (c & z & Hdet & Hz & Hpos).
  destruct (compareCombos_total last c) as (z' & Hz' & Hrange).
  { destruct (detectCombo_cards _ _ Hdet) as [Hcards Hne].
    rewrite Hcards. intros Hnil. apply (f_equal length) in Hnil.
    rewrite sortCards_length in Hnil. by destruct move. }
  rewrite Hz in Hz'. injection Hz' as <-.
  unfold scoreFollowingMove in Hp. rewrite Hdet, bind_Ret, Hz, bind_Ret in Hp.
  rewrite decide_False in Hp by lia.
  injection Hp as <-. simpl. repeat case_decide; lia.
Qed.

Lemma selectBestFollowingMove_elem_of moves :
  Forall (legalFor st seat) moves →
  ∃ res, selectBestFollowingMove moves st seat = Ret res ∧
    ((moves ≠ [] → is_Some res) ∧ ∀ m, res = Some m → m ∈ moves).
Proof.
  intros Hlegal. unfold selectBestFollowingMove.
  destruct (lastCombo st) as [last|] eqn:Hlast.
  2: { eexists. split; [done|]. split.
       - intros Hne. destruct moves; [done|]. by eexists.
       - intros m Hm. by eapply list_elem_of_lookup_2. }
  eapply (bind_returns
            (λ scored, scoresOf moves scored ∧ Forall (λ p, -1000 < p.2) scored)).
  { destruct (mapM_outcome
                (λ m (p : list Card * Z), p.1 = m ∧ -1000 < p.2)
                (scoreFollowingMove last) moves) as (scored & Hs & Hall).
    { intros m Hm. destruct (scoreFollowingMove_total last m) as (p & Hp & Hfst).
      exists p. split_and!; [done..|].
      eapply scoreFollowingMove_legal; [done| |done].
      by eapply Forall_forall in Hlegal. }
    exists scored. split_and!; [done| |].
    - eapply Forall2_impl; [done|]. by intros ?? [? _].
    - eapply Forall2_Forall_r; [done|]. apply Forall_forall. by intros ? _ ? [_ ?]. }
  intros scored [Hscored Hvalid]. cbv zeta.
  assert (List.filter (λ item : list Card * Z, bool_decide (-1000 < item.2)) scored = scored)
    as ->.
  { clear Hscored. induction Hvalid as [|p l Hp _ IH]; [done|]. simpl.
    by rewrite bool_decide_eq_true_2, IH. }
  destruct (decide (length scored = 0%nat)) as [Hlen|Hlen].
  { apply nil_length_inv in Hlen as ->. apply Forall2_nil_inv_r in Hscored as ->.
    eexists. split; [done|]. by split. }
  destruct (js_sort byScoreDesc scored) as [|best rest] eqn:Hsort.
  { apply (f_equal length) in Hsort. by rewrite length_js_sort in Hsort. }
  rewrite element_0, bind_Ret. eexists. split; [done|]. split; [by eexists|].
  intros m [= <-]. apply (scoresOf_elem_of _ scored); [done|].
  apply (head_js_sort_elem_of byScoreDesc). by rewrite Hsort.
Qed.

Lemma selectBestMove_elem_of moves :
  Forall (legalFor st seat) moves →
  ∃ res, selectBestMove moves st seat = Ret res ∧
    ((moves ≠ [] → is_Some res) ∧ ∀ m, res = Some m → m ∈ moves).
Proof using seat_hand.
  intros Hlegal. unfold selectBestMove.
  destruct (decide (length moves = 0%nat)) as [Hlen|Hlen].
  { apply nil_length_inv in Hlen as ->. eexists. split; [done|]. by split. }
  destruct (lastCombo st).
  - by apply selectBestFollowingMove_elem_of.
  - apply selectBestOpeningMove_elem_of.
Qed.

End heuristic.

(** C8.  For a seat with a hand, [aiChooseMove] returns (it does not
    throw).  A card set that it returns is one of the enumerated legal
    candidates and passes [isLegalMove] for the same state and seat; the
    result is absent exactly when there is no legal candidate. *)
Theorem aiChooseMove_legal (st : GameState) (seat : PlayerId) (hand : list Card) :
  at_index (hands st) seat = Some hand →
  ∃ res moves,
    aiChooseMove st seat = Ret res ∧
    getAllLegalMoves st seat = Ret moves ∧
    (∀ play, res = Some play →
       play ∈ moves ∧ ∃ r, isLegalMove st seat play = Ret r ∧ ok r = true) ∧
    (res = None ↔ moves = []).
Proof.
  intros Hhand.
  destruct (getAllLegalMoves_legal st seat hand Hhand) as (moves & Hmoves & Hlegal).
  destruct (selectBestMove_elem_of st seat hand Hhand moves Hlegal) as (best & Hbest & Hsome & Hin).
  unfold aiChooseMove, element. rewrite Hhand, bind_Ret. cbv zeta. rewrite Hmoves, bind_Ret.
  destruct (decide (length moves = 0%nat)) as [Hlen|Hlen].
  - apply nil_length_inv in Hlen as ->. exists None, []. by split_and!.
  - exists best, moves. rewrite Hbest. split_and!; [done..| |].
    + intros play ->. split; [by apply Hin|].
      eapply Forall_forall in Hlegal; [exact Hlegal|]. by apply Hin.
    + split.
      * intros ->. destruct Hsome as [? [=]]. by intros ->.
      * by intros ->.
Qed.

Lemma aiChooseMove_legal_witness :
  let hand := [mkCard R3 Spade; mkCard R3 Heart; mkCard R4 Club; mkCard R5 Club; mkCard R9 Club] in
  let st := {| players := 2;
               hands := [hand; [mkCard R4 Spade]];
               currentPlayer := Num 0;
               lastCombo := Some (mkCombo Single [mkCard R4 Spade] R4);
               passesInRow := 0;
               started := true;
               finished := false |} in
  ∃ res moves,
    aiChooseMove st 0 = Ret res ∧
    getAllLegalMoves st 0 = Ret moves ∧
    (∀ play, res = Some play →
       play ∈ moves ∧ ∃ r, isLegalMove st 0 play = Ret r ∧ ok r = true) ∧
    (res = None ↔ moves = []).
Proof.
  intros hand st. apply (aiChooseMove_legal st 0 hand). reflexivity.
Defined.

(** For a seat for which the state has no hand, the heuristic reads the
    hand [undefined]. *)
Lemma aiChooseMove_no_hand st seat :
  at_index (hands st) seat = None → aiChooseMove st seat = Throw TypeError.
Proof. intros Hnone. unfold aiChooseMove, element. by rewrite Hnone. Qed.

(** * Further properties of the engine *)

(** ** Sorting and detection *)

Lemma sortCards_perm_eq l k :
  l ≡ₚ k → sortCardsByRankSuit l = sortCardsByRankSuit k.
Proof.
  intros Hp. apply sortCards_unique; [|apply sortCards_sorted].
  by rewrite sortCards_perm.
Qed.

(** X1.  [sortCardsByRankSuit] returns the one ascending arrangement of its
    cards: the result is a sorted permutation of the input, two inputs with
    the same cards give the same result whatever their order, and a sorted
    input is returned as it is. *)
Theorem sortCardsByRankSuit_canonical (l k : list Card) :
  sortedFrom l (sortCardsByRankSuit l) ∧
  (l ≡ₚ k ↔ sortCardsByRankSuit l = sortCardsByRankSuit k) ∧
  (StronglySorted cardLe l → sortCardsByRankSuit l = l).
Proof.
  split_and!.
  - split; [apply sortCards_perm|apply sortCards_sorted].
  - split; [apply sortCards_perm_eq|].
    intros Heq. by rewrite <-(sortCards_perm l), Heq, sortCards_perm.
  - intros Hs. by apply sortCards_unique.
Qed.

(** X2.  The order in which the cards are given does not matter to the
    detector. *)
Theorem detectCombo_order_irrelevant (raw raw' : list Card) :
  raw ≡ₚ raw' → detectCombo raw = detectCombo raw'.
Proof. intros Hp. unfold detectCombo. by rewrite (sortCards_perm_eq _ _ Hp). Qed.

Lemma detectCombo_order_irrelevant_witness :
  detectCombo [mkCard R5 Heart; mkCard R3 Spade; mkCard R4 Club] =
  detectCombo [mkCard R3 Spade; mkCard R4 Club; mkCard R5 Heart].
Proof.
  apply detectCombo_order_irrelevant.
  etrans; [apply Permutation_swap|]. apply perm_skip, Permutation_swap.
Defined.

Global Instance isRun_perm : Proper ((≡ₚ) ==> iff) isRun.
Proof.
  assert (∀ l k, l ≡ₚ k → isRun l → isRun k) as H.
  { intros l k Hp (Hnd & Hno & l' & Hl' & Hc). split_and!.
    - by rewrite <-Hp.
    - intros c Hc'. apply Hno. by rewrite Hp.
    - exists l'. split; [by rewrite Hl'|done]. }
  intros l k Hp. split; apply H; done.
Qed.

(** A run avoids the rank 2 and repeats no rank, so it has at most the 12
    other ranks. *)
Lemma isRun_length cs : isRun cs → (length cs ≤ 12)%nat.
Proof.
  intros (Hnd & Hno & _).
  rewrite <-(length_fmap rank cs).
  change 12%nat with (length [R3; R4; R5; R6; R7; R8; R9; R10; RJ; RQ; RK; RA]).
  apply submseteq_length, NoDup_submseteq; [done|].
  intros r (c & -> & Hc)%list_elem_of_fmap. specialize (Hno c Hc).
  destruct (rank c); try done; repeat first [by left|right].
Qed.

(** X3.  A detected combination keeps the invariant of combinations: its
    cards are sorted; a Single, Pair, Triple or Bomb has 1, 2, 3 or 4
    cards, all of the primary rank; a Straight has between 3 and 12 cards
    that form a run without a 2, and its primary rank is the rank of its
    highest card. *)
Theorem detectCombo_invariant (raw : list Card) (c : Combo) :
  detectCombo raw = Ret (Some c) → wellShaped c.
Proof.
  intros H.
  pose proof (sortCards_perm raw) as Hp.
  pose proof (sortCards_sorted raw) as Hs.
  pose proof (sortCards_length raw) as Hl.
  pose proof (isStraight_spec raw) as Hstr.
  pose proof (everySameRank_spec (sortCardsByRankSuit raw)) as Hgrp.
  unfold detectCombo in H. set (cs := sortCardsByRankSuit raw) in *.
  destruct (decide (length cs = 0%nat)) as [|Hn0]; [done|].
  assert (cs ≠ []) as Hne by (intros Hnil; by rewrite Hnil in Hn0).
  destruct (element_0_ne cs Hne) as (c0 & Hc0 & Hin0). rewrite Hc0 in H.
  destruct (highestRank_spec cs Hne) as (r & Hr & Hhi). rewrite Hr in H.
  rewrite !bind_Ret in H.
  assert (allEqualRank cs → ∀ x, x ∈ cs → rank x = rank c0) as Hshared.
  { intros Hall x Hx. by apply Hall. }
  assert (isStraight cs = true → (3 ≤ length cs ≤ 12)%nat ∧ isRun cs) as Hrun.
  { intros [Hlen Hrun]%Hstr. rewrite <-Hp in Hrun.
    split; [|done]. split; [lia|by apply isRun_length]. }
  destruct (decide (length cs = 1%nat)) as [Hn1|Hn1].
  { injection H as <-. split; [done|]. simpl. split; [done|].
    intros x Hx. destruct cs as [|y [|??]]; try done.
    apply list_elem_of_singleton in Hx, Hin0. congruence. }
  destruct (decide (length cs = 2%nat)) as [Hn2|Hn2].
  { destruct cs as [|a [|b [|??]]] eqn:Hcs; try done.
    rewrite element_0 in Hc0. injection Hc0 as <-.
    rewrite element_1, bind_Ret in H.
    destruct (decide (rank a = rank b)) as [Heq|]; [|done].
    injection H as <-. split; [done|]. simpl. split; [done|].
    intros x [Hx|Hx%list_elem_of_singleton]%elem_of_cons; by subst. }
  destruct (decide (length cs = 3%nat)) as [Hn3|Hn3].
  { destruct (everySameRank cs) eqn:Hsame.
    - injection H as <-. split; [done|]. simpl. split; [done|].
      apply Hshared. by apply Hgrp.
    - destruct (isStraight cs) eqn:Hst; [|done].
      injection H as <-. split; [done|]. simpl.
      destruct Hrun as [??]; done. }
  destruct (bool_decide (length cs = 4%nat) && everySameRank cs) eqn:Hbomb.
  { apply andb_true_iff in Hbomb as [Hn4%bool_decide_eq_true Hsame].
    injection H as <-. split; [done|]. simpl. split; [done|].
    apply Hshared. by apply Hgrp. }
  destruct (isStraight cs) eqn:Hst; [|done].
  injection H as <-. split; [done|]. simpl.
  destruct Hrun as [??]; done.
Qed.

Lemma detectCombo_invariant_witness :
  wellShaped (mkCombo Straight [mkCard R3 Spade; mkCard R4 Club; mkCard R5 Heart] R5).
Proof.
  apply (detectCombo_invariant [mkCard R5 Heart; mkCard R3 Spade; mkCard R4 Club]).
  reflexivity.
Defined.

(** X4.  Detecting the cards of a detected combination gives the same
    combination again. *)
Theorem detectCombo_redetect (raw : list Card) (c : Combo) :
  detectCombo raw = Ret (Some c) → detectCombo (cards c) = Ret (Some c).
Proof.
  intros H. destruct (detectCombo_cards _ _ H) as [-> _].
  unfold detectCombo in *.
  by rewrite (sortCards_perm_eq _ raw (sortCards_perm raw)).
Qed.

Lemma detectCombo_redetect_witness :
  detectCombo (cards (mkCombo Pair [mkCard R3 Heart; mkCard R3 Spade] R3)) =
  Ret (Some (mkCombo Pair [mkCard R3 Heart; mkCard R3 Spade] R3)).
Proof.
  apply (detectCombo_redetect [mkCard R3 Spade; mkCard R3 Heart]). reflexivity.
Defined.

Lemma consecutiveRun_NoDup l : consecutiveRun l → NoDup (rank <$> l).
Proof.
  induction l as [|x l IH]; intros H; [constructor|].
  rewrite fmap_cons. constructor.
  - intros (d & Hr & Hd)%list_elem_of_fmap.
    apply consecutiveRun_above in H. eapply Forall_forall in H; [|done].
    rewrite Hr in H. lia.
  - apply IH. destruct l as [|y l]; [by intros [|?] ??|].
    by apply consecutiveRun_cons in H as [_ ?].
Qed.

(** X5.  [isStraight] accepts exactly the sequences of at least 3 cards,
    none of them a 2, that are already laid out in ascending consecutive
    ranks; a run given in another order is refused (the detector sorts
    first), and the check of repeated ranks never decides alone. *)
Theorem isStraight_exact (cs : list Card) :
  isStraight cs = true ↔
  (3 ≤ length cs)%nat ∧ (∀ c, c ∈ cs → rank c ≠ R2) ∧ consecutiveRun cs.
Proof.
  unfold isStraight.
  destruct (decide (length cs < 3)%nat) as [?|Hlen].
  { split; [done|]. intros [? _]. lia. }
  destruct (existsb _ _) eqn:H2.
  { split; [done|]. intros (_ & Hno & _).
    apply existsb_exists in H2 as (r & Hin & ->%bool_decide_eq_true).
    apply list_elem_of_In, list_elem_of_fmap in Hin as (c & Hr & Hc).
    by destruct (Hno c Hc). }
  assert (∀ c, c ∈ cs → rank c ≠ R2) as Hno.
  { intros c Hc Hr. apply not_true_iff_false in H2. apply H2.
    apply existsb_exists. exists R2. split; [|by apply bool_decide_eq_true].
    apply list_elem_of_In, list_elem_of_fmap. by exists c. }
  destruct (decide (length (remove_dups _) ≠ _)) as [Hd|Hd].
  { split; [done|]. intros (_ & _ & Hc). destruct Hd.
    by apply length_remove_dups_NoDup, consecutiveRun_NoDup. }
  rewrite consecutiveFrom_run. split; [|by intros (_ & _ & ?)].
  intros Hc. split_and!; [lia|done..].
Qed.

(** ** The comparator as an order *)

Lemma sorted_last_None cs :
  at_index (sortCardsByRankSuit cs) (Z.of_nat (length cs) - 1) = None ↔ cs = [].
Proof.
  rewrite <-(sortCards_length cs), at_index_last. split.
  - intros Hnone. destruct (decide (cs = [])) as [|Hne]; [done|].
    destruct (sortCards_last_is_Some cs Hne) as [? Hsome]. congruence.
  - by intros ->.
Qed.

Lemma topSuit_at_index c :
  topSuit c =
    (λ x, suitIndex (suit x)) <$>
      at_index (sortCardsByRankSuit (cards c)) (Z.of_nat (length (cards c)) - 1).
Proof. unfold topSuit. by rewrite <-(sortCards_length (cards c)), at_index_last. Qed.

(** The comparison after the size checks, in terms of rank and top suit. *)
Lemma compareRankThenSuit_eq prev next :
  compareRankThenSuit prev next =
    if decide (primaryRank prev = primaryRank next) then
      match topSuit next, topSuit prev with
      | Some n, Some p => Ret (ordering p n)
      | _, _ => Throw TypeError
      end
    else Ret (rankOrder (primaryRank prev) (primaryRank next)).
Proof.
  unfold compareRankThenSuit, rankOrder. rewrite !topSuit_at_index, sgn_ordering.
  destruct (decide (primaryRank prev = primaryRank next)) as [Heq|Hne].
  - rewrite decide_False.
    2: { intros Hne. apply Hne, ordering_equal. by rewrite Heq. }
    destruct (at_index (sortCardsByRankSuit (cards next)) _),
             (at_index (sortCardsByRankSuit (cards prev)) _); simpl; try done.
    by rewrite sgn_ordering.
  - rewrite decide_True; [done|].
    intros Heq. apply (proj1 (ordering_equal _ _)) in Heq.
    apply Hne. by apply (inj rankIndex).
Qed.

Lemma topSuit_None c : topSuit c = None ↔ cards c = [].
Proof. rewrite topSuit_at_index, fmap_None. apply sorted_last_None. Qed.

(** X6.  [compareCombos] throws in one situation only: neither combination
    is a Bomb, the types and the primary ranks are equal, and both have no
    cards, so that the tie-break finds no highest card.  On all other
    inputs it returns. *)
Theorem compareCombos_throws (prev next : Combo) :
  compareCombos prev next = Throw TypeError ↔
  type prev ≠ Bomb4 ∧ type next ≠ Bomb4 ∧ type prev = type next ∧
  primaryRank prev = primaryRank next ∧ cards prev = [] ∧ cards next = [].
Proof.
  assert (length (cards prev) = length (cards next) →
          (compareRankThenSuit prev next = Throw TypeError ↔
           primaryRank prev = primaryRank next ∧ cards prev = [] ∧ cards next = []))
    as Htie.
  { intros Hlen. rewrite compareRankThenSuit_eq.
    destruct (decide (primaryRank prev = primaryRank next)) as [Heq|Hne].
    2: { split; [done|]. by intros [? _]. }
    destruct (topSuit next) as [n|] eqn:Hn.
    - assert (cards next ≠ []) as Hne by (intros ?%topSuit_None; congruence).
      destruct (topSuit prev) as [p|] eqn:Hp.
      + split; [done|]. by intros (_ & _ & ?).
      + apply topSuit_None in Hp. rewrite Hp in Hlen. by destruct (cards next).
    - apply topSuit_None in Hn. rewrite Hn in Hlen.
      split; [|done]. intros _. split_and!; [done| |done].
      by destruct (cards prev). }
  unfold compareCombos.
  destruct (decide (type prev = Bomb4)) as [Hp|Hp].
  { destruct (decide (type next = Bomb4)); (split; [done|]); by intros [? _]. }
  destruct (decide (type next = Bomb4)) as [Hn|Hn].
  { split; [done|]. by intros (_ & ? & _). }
  destruct (decide (type prev ≠ type next)) as [Hty|Hty].
  { split; [done|]. by intros (_ & _ & ? & _). }
  apply dec_stable in Hty.
  destruct (decide (type prev = Straight));
    destruct (decide (length (cards prev) ≠ length (cards next))) as [Hlen|Hlen].
  all: try (split; [done|]; intros (_ & _ & _ & _ & H1 & H2);
            by rewrite H1, H2 in Hlen).
  all: apply dec_stable in Hlen; rewrite (Htie Hlen).
  all: split; [by intros (? & ? & ?)|by intros (_ & _ & _ & ? & ? & ?)].
Qed.

Lemma ordering_flip p n : ordering n p = - ordering p n.
Proof. unfold ordering. destruct (Z.compare_spec p n), (Z.compare_spec n p); lia. Qed.

Lemma Ret_ordering_greater x y : Ret (ordering x y) = Ret 1 ↔ x < y.
Proof. rewrite <-ordering_greater. split; [by intros [=]|by intros ->]. Qed.

(** The comparison after the size checks answers greater on a higher
    primary rank, or on the same primary rank and a higher top suit. *)
Lemma compareRankThenSuit_greater p n :
  compareRankThenSuit p n = Ret 1 ↔
  rankIndex (primaryRank p) < rankIndex (primaryRank n) ∨
  (primaryRank p = primaryRank n ∧
   ∃ sp sn, topSuit p = Some sp ∧ topSuit n = Some sn ∧ sp < sn).
Proof.
  rewrite compareRankThenSuit_eq.
  destruct (decide (primaryRank p = primaryRank n)) as [Heq|Hne].
  - destruct (topSuit n) as [sn|], (topSuit p) as [sp|]; rewrite ?Ret_ordering_greater.
    + split; [intros; right; split; [done|]; by exists sp, sn|].
      intros [Hlt|(_ & sp' & sn' & ? & ? & ?)]; [rewrite Heq in Hlt; lia|by simplify_eq].
    + split; [done|]. intros [Hlt|(_ & ? & ? & ? & _)]; [rewrite Heq in Hlt; lia|done].
    + split; [done|]. intros [Hlt|(_ & ? & ? & _ & ? & _)]; [rewrite Heq in Hlt; lia|done].
    + split; [done|]. intros [Hlt|(_ & ? & ? & ? & _)]; [rewrite Heq in Hlt; lia|done].
  - unfold rankOrder. rewrite Ret_ordering_greater.
    split; [by left|]. by intros [?|[? _]].
Qed.

(** Beating, spelled out. *)
Lemma beats_iff p n :
  beats p n ↔
  (type p = Bomb4 ∧ type n = Bomb4 ∧
   rankIndex (primaryRank p) < rankIndex (primaryRank n)) ∨
  (type p ≠ Bomb4 ∧ type n = Bomb4) ∨
  (type p ≠ Bomb4 ∧ type n ≠ Bomb4 ∧ type p = type n ∧
   length (cards p) = length (cards n) ∧
   (rankIndex (primaryRank p) < rankIndex (primaryRank n) ∨
    (primaryRank p = primaryRank n ∧
     ∃ sp sn, topSuit p = Some sp ∧ topSuit n = Some sn ∧ sp < sn))).
Proof.
  unfold beats, compareCombos.
  destruct (decide (type p = Bomb4)) as [Hp|Hp].
  { destruct (decide (type n = Bomb4)) as [Hn|Hn].
    - rewrite sgn_ordering, Ret_ordering_greater.
      split; [by left|]. by intros [(_ & _ & ?)|[(? & _)|(? & _)]].
    - split; [done|]. by intros [(_ & ? & _)|[(? & _)|(? & _)]]. }
  destruct (decide (type n = Bomb4)) as [Hn|Hn].
  { split; [|done]. intros _. right. by left. }
  destruct (decide (type p ≠ type n)) as [Hty|Hty].
  { split; [done|]. by intros [(? & _)|[(_ & ?)|(_ & _ & ? & _)]]. }
  apply dec_stable in Hty.
  destruct (decide (type p = Straight));
    destruct (decide (length (cards p) ≠ length (cards n))) as [Hlen|Hlen].
  all: try (split; [done|]; by intros [(? & _)|[(_ & ?)|(_ & _ & _ & ? & _)]]).
  all: apply dec_stable in Hlen; rewrite compareRankThenSuit_greater.
  all: split; [intros; right; right; by split_and!|].
  all: by intros [(? & _)|[(_ & ?)|(_ & _ & _ & _ & ?)]].
Qed.

Lemma ordering_less p n : n < p → ordering p n = -1.
Proof. intros H. unfold ordering. destruct (Z.compare_spec p n); lia. Qed.

(** X7.  Beating is one-way: when [b] beats [a], comparing the other way
    round answers less.  In particular no combination beats itself. *)
Theorem compareCombos_asymmetric (a b : Combo) :
  compareCombos a b = Ret 1 → compareCombos b a = Ret (-1).
Proof.
  intros Hab. change (beats a b) in Hab. apply beats_iff in Hab.
  unfold compareCombos.
  destruct Hab as [(Ha & Hb & Hlt)|[(Ha & Hb)|(Ha & Hb & Hty & Hlen & Hab)]].
  - rewrite !decide_True by done. by rewrite sgn_ordering, ordering_less.
  - by rewrite decide_True, decide_False by done.
  - rewrite (decide_False (P := type b = Bomb4)), (decide_False (P := type a = Bomb4)) by done.
    rewrite (decide_False (P := type b ≠ type a)) by (by intros []).
    rewrite (decide_False (P := length (cards b) ≠ length (cards a))) by (by intros []).
    assert (compareRankThenSuit b a = Ret (-1)) as ->; [|by destruct (decide _)].
    rewrite compareRankThenSuit_eq.
    destruct Hab as [Hlt|(Heq & sa & sb & Hsa & Hsb & Hlt)].
    + rewrite decide_False by (intros Heq; rewrite Heq in Hlt; lia).
      unfold rankOrder. by rewrite ordering_less.
    + rewrite decide_True, Hsa, Hsb by done. by rewrite ordering_less.
Qed.

Lemma compareCombos_asymmetric_witness :
  compareCombos (mkCombo Pair [mkCard R9 Club; mkCard R9 Spade] R9)
                (mkCombo Pair [mkCard R5 Club; mkCard R5 Heart] R5) = Ret (-1).
Proof. apply compareCombos_asymmetric. reflexivity. Defined.

(** X8.  Beating is transitive: when [b] beats [a] and [c] beats [b], then
    [c] beats [a]. *)
Theorem compareCombos_transitive (a b c : Combo) :
  compareCombos a b = Ret 1 → compareCombos b c = Ret 1 → compareCombos a c = Ret 1.
Proof.
  intros Hab Hbc. apply beats_iff in Hab, Hbc. apply beats_iff.
  destruct Hab as [(?&?&?)|[(?&?)|(?&?&?&?&Hab)]],
           Hbc as [(?&?&?)|[(?&?)|(?&?&?&?&Hbc)]]; simplify_eq; try done.
  - left. split_and!; [done..|lia].
  - right. by left.
  - right. by left.
  - right. right. split_and!; [done|done|congruence|congruence|].
    destruct Hab as [?|(Hr1 & sa & sb & Ha & Hb & ?)],
             Hbc as [?|(Hr2 & sb' & sc & Hb' & Hc & ?)].
    + left. lia.
    + left. by rewrite <-Hr2.
    + left. by rewrite Hr1.
    + right. split; [congruence|]. exists sa, sc. simplify_eq. split_and!; [done..|lia].
Qed.

Lemma compareCombos_transitive_witness :
  compareCombos (mkCombo Single [mkCard R5 Club] R5)
                (mkCombo Single [mkCard R9 Club] R9) = Ret 1.
Proof.
  apply (compareCombos_transitive _ (mkCombo Single [mkCard R5 Spade] R5)); reflexivity.
Defined.

(** ** The legality check, again *)

(** X9.  [isLegalMove] throws in one situation only: the game is in
    progress and it is the turn of a seat for which the state has no hand.
    On every other input it returns an answer. *)
Theorem isLegalMove_throws (st : GameState) (seat : PlayerId) (cs : list Card) :
  isLegalMove st seat cs = Throw TypeError ↔
  finished st = false ∧ started st = true ∧ currentPlayer st = Num seat ∧
  at_index (hands st) seat = None.
Proof.
  split.
  - intros Hthrow.
    destruct (at_index (hands st) seat) as [hand|] eqn:Hhand.
    { destruct (isLegalMove_total st seat cs hand Hhand) as [r Hr]. congruence. }
    unfold isLegalMove in Hthrow.
    destruct (finished st); [done|]. destruct (started st); [|done]. simpl in Hthrow.
    destruct (decide (Num seat ≠ currentPlayer st)) as [|Hcur]; [done|].
    by apply dec_stable in Hcur.
  - intros (? & ? & ? & ?). by apply isLegalMove_no_hand.
Qed.

(** X10.  The order in which the proposed cards are given does not matter
    to the legality check. *)
Theorem isLegalMove_order_irrelevant (st : GameState) (seat : PlayerId) (cs cs' : list Card) :
  cs ≡ₚ cs' → isLegalMove st seat cs = isLegalMove st seat cs'.
Proof.
  intros Hp.
  assert (detectCombo cs = detectCombo cs') as Hdet.
  { unfold detectCombo. by rewrite (sortCards_perm_eq _ _ Hp). }
  unfold isLegalMove. rewrite Hdet.
  destruct (finished st); [done|]. destruct (started st); [|done]. simpl.
  destruct (decide _); [done|].
  destruct (element (hands st) seat) as [hand|]; [|done]. rewrite !bind_Ret.
  destruct (takeFromHand hand cs) eqn:Hcs, (takeFromHand hand cs') eqn:Hcs'; try done.
  - apply takeFromHand_None in Hcs'. rewrite <-(missingFrom_perm hand _ _ Hp) in Hcs'.
    apply takeFromHand_None in Hcs'. congruence.
  - apply takeFromHand_None in Hcs. rewrite (missingFrom_perm hand _ _ Hp) in Hcs.
    apply takeFromHand_None in Hcs. congruence.
Qed.

Lemma isLegalMove_order_irrelevant_witness :
  let st := {| players := 2;
               hands := [[mkCard R3 Spade; mkCard R3 Heart; mkCard R9 Club]; [mkCard R4 Spade]];
               currentPlayer := Num 0;
               lastCombo := None;
               passesInRow := 0;
               started := true;
               finished := false |} in
  isLegalMove st 0 [mkCard R3 Heart; mkCard R3 Spade] =
  isLegalMove st 0 [mkCard R3 Spade; mkCard R3 Heart].
Proof. intros st. apply isLegalMove_order_irrelevant, Permutation_swap. Defined.

(** ** Playing and passing, again *)

Lemma concat_insert {A} (hs : list (list A)) (i : nat) (h h' : list A) :
  hs !! i = Some h →
  concat hs = concat (take i hs) ++ h ++ concat (drop (S i) hs) ∧
  concat (<[i := h']> hs) = concat (take i hs) ++ h' ++ concat (drop (S i) hs).
Proof.
  intros Hi. split.
  - rewrite <-(take_drop_middle hs i h Hi) at 1. by rewrite concat_app.
  - rewrite insert_take_drop by (by eapply lookup_lt_Some). by rewrite concat_app.
Qed.

(** X11.  A legal move takes the cards of the combination, and nothing
    else, out of the game: the cards held before the move are those of the
    combination together with the cards held after it, so that the total
    number of cards in the hands drops by the size of the combination. *)
Theorem applyMove_conserves (st : GameState) (seat : PlayerId) (cs : list Card)
    (r : MoveCheck) (c : Combo) :
  isLegalMove st seat cs = Ret r → ok r = true → combo r = Some c →
  ∃ st', applyMove st seat c = Ret st' ∧
    concat (hands st) ≡ₚ cards c ++ concat (hands st') ∧
    length (concat (hands st)) = (length (cards c) + length (concat (hands st')))%nat.
Proof.
  intros Hr Hok Hcombo.
  destruct (isLegalMove_ok_inv _ _ _ _ Hr Hok) as (_ & _ & _ & hand & c' & Hhand & Hm & Hdet & ->).
  injection Hcombo as ->.
  destruct (detectCombo_cards _ _ Hdet) as [Hcards _].
  assert (¬ missingFrom hand (cards c)) as Hm'.
  { by rewrite Hcards, (missingFrom_perm hand _ cs (sortCards_perm cs)). }
  pose proof (removeCards_perm _ _ Hm') as Hperm.
  apply at_index_Some in Hhand as Hseat. destruct Hseat as [Hseat Hlook].
  unfold applyMove. rewrite (removeFromHands_loop _ _ _ _ Hhand), bind_Ret.
  unfold element. rewrite (at_index_insert _ _ _ _ Hhand), bind_Ret.
  eexists. split; [done|]. simpl.
  destruct (concat_insert (hands st) (Z.to_nat seat) hand
              (removeCards hand (cards c)) Hlook) as [-> ->].
  assert (∀ X Y : list Card,
            X ++ hand ++ Y ≡ₚ cards c ++ X ++ removeCards hand (cards c) ++ Y) as Hmove.
  { intros X Y. rewrite Hperm at 1. rewrite <-(assoc_L (++) (cards c)).
    apply Permutation_app_swap_app. }
  split; [apply Hmove|].
  by rewrite (Hmove _ _), length_app.
Qed.

Lemma applyMove_conserves_witness :
  let st := {| players := 2;
               hands := [[mkCard R3 Spade; mkCard R3 Heart; mkCard R9 Club]; [mkCard R4 Spade]];
               currentPlayer := Num 0;
               lastCombo := None;
               passesInRow := 1;
               started := true;
               finished := false |} in
  let c := mkCombo Pair [mkCard R3 Heart; mkCard R3 Spade] R3 in
  ∃ st', applyMove st 0 c = Ret st' ∧
    concat (hands st) ≡ₚ cards c ++ concat (hands st') ∧
    length (concat (hands st)) = (length (cards c) + length (concat (hands st')))%nat.
Proof.
  intros st c.
  apply (applyMove_conserves st 0 [mkCard R3 Spade; mkCard R3 Heart] (accepted c) c);
    reflexivity.
Defined.

Lemma removeCards_absent cs : ∀ hand,
  (∀ x, x ∈ cs → x ∉ hand) → removeCards hand cs = hand.
Proof.
  induction cs as [|c cs IH]; intros hand Habs; [done|]. simpl.
  destruct (findIndex_sameCard c hand) as [[_ ->]|(i & _ & Hi)].
  - rewrite decide_False by lia. apply IH. intros x Hx. apply Habs. by right.
  - destruct (Habs c); [by left|]. by eapply list_elem_of_lookup_2.
Qed.

(** X12.  [applyMove] does not validate.  It throws exactly when the state
    has no hand for the seat.  Otherwise it returns, for every combination:
    the new hand of the seat is a part of the old one in the same order, so
    no card is ever added; cards of the combination that the seat does not
    hold are skipped, the hand being untouched when it holds none of them;
    and the combination is put on the table all the same. *)
Theorem applyMove_unvalidated (st : GameState) (seat : PlayerId) (c : Combo) :
  (applyMove st seat c = Throw TypeError ↔ at_index (hands st) seat = None) ∧
  (∀ hand, at_index (hands st) seat = Some hand →
     ∃ st' hand', applyMove st seat c = Ret st' ∧
       at_index (hands st') seat = Some hand' ∧
       hand' `sublist_of` hand ∧
       ((∀ x, x ∈ cards c → x ∉ hand) → hand' = hand) ∧
       lastCombo st' = Some c ∧
       passesInRow st' = 0).
Proof.
  assert (∀ hand, at_index (hands st) seat = Some hand →
     ∃ st' hand', applyMove st seat c = Ret st' ∧
       at_index (hands st') seat = Some hand' ∧
       hand' `sublist_of` hand ∧
       ((∀ x, x ∈ cards c → x ∉ hand) → hand' = hand) ∧
       lastCombo st' = Some c ∧
       passesInRow st' = 0) as Hret.
  { intros hand Hhand. unfold applyMove.
    rewrite (removeFromHands_loop _ _ _ _ Hhand), bind_Ret.
    unfold element. rewrite (at_index_insert _ _ _ _ Hhand), bind_Ret.
    eexists. exists (removeCards hand (cards c)). split; [done|]. simpl.
    split_and!; [by eapply at_index_insert|apply removeCards_sublist| |done..].
    apply removeCards_absent. }
  split; [|done]. split.
  - intros Hthrow. destruct (at_index (hands st) seat) as [hand|] eqn:Hhand; [|done].
    destruct (Hret hand eq_refl) as (? & ? & ? & _). congruence.
  - intros Hnone. unfold applyMove.
    destruct (cards c) as [|x xs].
    + simpl. unfold element. by rewrite Hnone.
    + rewrite foldlM_cons.
      assert (removeFromHands seat (hands st) x = Throw TypeError) as ->; [|done].
      unfold removeFromHands, element. by rewrite Hnone.
Qed.

Lemma applyPass_hands seats : ∀ st, hands (foldl applyPass st seats) = hands st.
Proof.
  induction seats as [|seat seats IH]; intros st; [done|]. simpl. rewrite IH.
  unfold applyPass. by destruct (finished st).
Qed.

Lemma applyPass_clears st seat :
  finished st = false → players st - 1 ≤ passesInRow st + 1 →
  lastCombo (applyPass st seat) = None ∧ passesInRow (applyPass st seat) = 0.
Proof.
  intros Hfin Hge. unfold applyPass. rewrite Hfin. simpl.
  by rewrite bool_decide_eq_true_2 by lia.
Qed.

Lemma applyPass_below seats : ∀ st,
  finished st = false →
  passesInRow st + Z.of_nat (length seats) < players st - 1 →
  let st' := foldl applyPass st seats in
  passesInRow st' = passesInRow st + Z.of_nat (length seats) ∧
  lastCombo st' = lastCombo st ∧ hands st' = hands st ∧
  players st' = players st ∧ finished st' = false.
Proof.
  induction seats as [|seat seats IH]; intros st Hfin Hlt.
  { simpl. split_and!; [lia|done..]. }
  simpl in *.
  assert (let st1 := applyPass st seat in
          passesInRow st1 = passesInRow st + 1 ∧ lastCombo st1 = lastCombo st ∧
          hands st1 = hands st ∧ players st1 = players st ∧ finished st1 = false)
    as (Hp & Hc & Hh & Hn & Hf).
  { unfold applyPass. rewrite Hfin. simpl.
    rewrite bool_decide_eq_false_2 by lia. done. }
  destruct (IH (applyPass st seat)) as (Hp' & Hc' & Hh' & Hn' & Hf'); [done|lia|].
  split_and!; [lia|congruence..].
Qed.

(** X13.  Passes add up to a cleared table.  From a state in progress in
    which nobody has passed since the last play, fewer than [players - 1]
    passes in a row leave the combination on the table and count the
    passes; the pass number [players - 1] clears the table and resets the
    count.  The hands stay as they are.  [applyPass] does not look at who
    passes. *)
Theorem applyPass_round (st : GameState) (seats : list PlayerId) :
  finished st = false → passesInRow st = 0 →
  let st' := foldl applyPass st seats in
  hands st' = hands st ∧
  (Z.of_nat (length seats) < players st - 1 →
     lastCombo st' = lastCombo st ∧ passesInRow st' = Z.of_nat (length seats)) ∧
  (seats ≠ [] → Z.of_nat (length seats) = players st - 1 →
     lastCombo st' = None ∧ passesInRow st' = 0).
Proof.
  intros Hfin Hzero. simpl. split_and!.
  - apply applyPass_hands.
  - intros Hlt. destruct (applyPass_below seats st Hfin) as (? & ? & _); [lia|].
    split; [done|lia].
  - intros Hne Hlen. destruct (exists_last Hne) as (pre & seat & ->).
    rewrite length_app in Hlen. simpl in Hlen. rewrite foldl_snoc.
    destruct (applyPass_below pre st Hfin) as (Hp & Hc & Hh & Hn & Hf); [lia|].
    apply applyPass_clears; [done|lia].
Qed.

Lemma applyPass_round_witness :
  let st := {| players := 3;
               hands := [[mkCard R3 Spade]; [mkCard R4 Spade]; [mkCard R5 Spade]];
               currentPlayer := Num 1;
               lastCombo := Some (mkCombo Single [mkCard R9 Club] R9);
               passesInRow := 0;
               started := true;
               finished := false |} in
  let st' := foldl applyPass st [1; 2] in
  hands st' = hands st ∧
  (Z.of_nat (length [1; 2]) < players st - 1 →
     lastCombo st' = lastCombo st ∧ passesInRow st' = Z.of_nat (length [1; 2])) ∧
  ([1; 2] ≠ [] → Z.of_nat (length [1; 2]) = players st - 1 →
     lastCombo st' = None ∧ passesInRow st' = 0).
Proof. intros st. apply (applyPass_round st [1; 2]); reflexivity. Defined.

(** ** Shuffling *)

Lemma insert_swap_perm {T} (l : list T) (j : nat) (x y : T) :
  l !! j = Some y → y :: <[j := x]> l ≡ₚ x :: l.
Proof.
  revert j. induction l as [|b l IH]; intros [|j] Hj; try done; simpl in *.
  - injection Hj as ->. apply Permutation_swap.
  - rewrite (Permutation_swap b y), (IH j Hj). apply Permutation_swap.
Qed.

(** Exchanging two elements of a list is a permutation. *)
Lemma swap_perm {T} (l : list T) (i j : nat) (x y : T) :
  l !! i = Some x → l !! j = Some y → <[j := x]> (<[i := y]> l) ≡ₚ l.
Proof.
  revert i j. induction l as [|a l IH]; intros [|i] [|j] Hi Hj; try done; simpl in *.
  - by simplify_eq.
  - injection Hi as ->. apply (insert_swap_perm l j x y Hj).
  - injection Hj as ->. apply (insert_swap_perm l i y x Hi).
  - by rewrite (IH i j).
Qed.

Lemma array_set_in_range {T} (a : list (option T)) (i : nat) (v : option T) :
  (i < length a)%nat → array_set a i v = <[i := v]> a.
Proof. intros Hi. unfold array_set. by rewrite decide_True. Qed.

Lemma array_get_fmap {T} (l : list T) (i : nat) (x : T) :
  l !! i = Some x → array_get (Some <$> l) i = Some x.
Proof. intros Hx. unfold array_get. by rewrite list_lookup_fmap, Hx. Qed.

Lemma swapElements_in_range {T} (l : list T) (i j : nat) :
  (i < length l)%nat → (j < length l)%nat →
  ∃ l', swapElements (Some <$> l) i j = Some <$> l' ∧ l' ≡ₚ l.
Proof.
  intros Hi Hj.
  destruct (lookup_lt_is_Some_2 l i Hi) as [x Hx].
  destruct (lookup_lt_is_Some_2 l j Hj) as [y Hy].
  exists (<[j := x]> (<[i := y]> l)). split; [|by apply swap_perm].
  unfold swapElements.
  rewrite (array_get_fmap l i x Hx), (array_get_fmap l j y Hy).
  rewrite (array_set_in_range (Some <$> l) i) by (by rewrite length_fmap).
  rewrite array_set_in_range by (by rewrite length_insert, length_fmap).
  by rewrite !list_fmap_insert.
Qed.

Lemma shuffle_loop_perm {T} (pick : nat → nat) (idxs : list nat) : ∀ l : list T,
  (∀ i, i ∈ idxs → (i < length l)%nat ∧ (pick i < length l)%nat) →
  ∃ l', foldl (λ a i, swapElements a i (pick i)) (Some <$> l) idxs = Some <$> l' ∧ l' ≡ₚ l.
Proof.
  induction idxs as [|i idxs IH]; intros l Hin; [by exists l|]. simpl.
  destruct (Hin i) as [Hi Hj]; [by left|].
  destruct (swapElements_in_range l i (pick i) Hi Hj) as (l1 & -> & Hp1).
  destruct (IH l1) as (l2 & -> & Hp2).
  { intros k Hk. rewrite Hp1. apply Hin. by right. }
  exists l2. split; [done|]. by rewrite Hp2.
Qed.

Lemma shuffle_perm {T} (arr : list T) (pick : nat → nat) :
  (∀ i, (1 ≤ i < length arr)%nat → (pick i < length arr)%nat) →
  ∃ l, shuffle arr pick = Some <$> l ∧ l ≡ₚ arr.
Proof.
  intros Hpick. unfold shuffle. apply shuffle_loop_perm.
  intros i Hi. rewrite length_fmap in Hi.
  apply elem_of_reverse, elem_of_seq in Hi. split; [lia|]. apply Hpick. lia.
Qed.

(** X14.  When every index that the random source yields lies inside the
    array, [shuffle] returns a permutation of its input: the same elements,
    as many times each, none of them [undefined]. *)
Theorem shuffle_permutation {T} (arr : list T) (pick : nat → nat) :
  (∀ i, (1 ≤ i < length arr)%nat → (pick i < length arr)%nat) →
  ∃ l, shuffle arr pick = Some <$> l ∧ l ≡ₚ arr ∧ length l = length arr.
Proof.
  intros Hpick. destruct (shuffle_perm arr pick Hpick) as (l & Hl & Hp).
  exists l. split_and!; [done..|]. by rewrite Hp.
Qed.

Lemma shuffle_permutation_witness :
  ∃ l, shuffle [mkCard R3 Spade; mkCard R4 Spade; mkCard R5 Spade] (λ i, 0%nat) = Some <$> l ∧
       l ≡ₚ [mkCard R3 Spade; mkCard R4 Spade; mkCard R5 Spade] ∧
       length l = length [mkCard R3 Spade; mkCard R4 Spade; mkCard R5 Spade].
Proof. apply shuffle_permutation. intros i Hi. simpl. lia. Defined.






(** ** Dealing and starting a game *)

Lemma buildDeck_cards c : c ∈ buildDeck.
Proof. destruct c as [[] []]; by apply (bool_decide_unpack _); vm_compute. Qed.

(** The card at deck index [i] goes to one seat of a list of distinct
    seats, if its seat is in the list. *)
Lemma concat_dealtTo_cons n i c rest (seats : list Z) :
  NoDup seats →
  concat ((λ s, dealtTo n s i (c :: rest)) <$> seats) ≡ₚ
    (if decide (i `mod` n ∈ seats) then [c] else []) ++
    concat ((λ s, dealtTo n s (i + 1) rest) <$> seats).
Proof.
  induction 1 as [|s seats Hs _ IH]; [done|].
  rewrite !fmap_cons. simpl concat. rewrite IH. simpl dealtTo.
  destruct (decide (i `mod` n = s)) as [<-|Hne].
  - rewrite (decide_False (P := i `mod` n ∈ seats)) by done.
    by rewrite (decide_True (P := i `mod` n ∈ i `mod` n :: seats)) by (by left).
  - destruct (decide (i `mod` n ∈ seats)) as [Hin|Hnin].
    + rewrite (decide_True (P := i `mod` n ∈ s :: seats)) by (by right).
      simpl. symmetry. apply Permutation_middle.
    + rewrite (decide_False (P := i `mod` n ∈ s :: seats)); [done|].
      by intros [?|?]%elem_of_cons.
Qed.

Lemma concat_dealtTo n rest : ∀ i,
  0 < n → concat ((λ s, dealtTo n s i rest) <$> seqZ 0 n) ≡ₚ rest.
Proof.
  induction rest as [|c rest IH]; intros i Hn.
  { simpl. induction (seqZ 0 n) as [|s l IHl]; [done|]. by rewrite fmap_cons. }
  rewrite concat_dealtTo_cons by apply NoDup_seqZ.
  rewrite decide_True, IH by (done || (apply elem_of_seqZ; pose proof (Z.mod_pos_bound i n); lia)).
  done.
Qed.

Lemma dealPlayers_hands deck n :
  1 ≤ n →
  dealPlayers deck n =
    Ret (map sortCardsByRankSuit ((λ s, dealtTo n s 0 deck) <$> seqZ 0 n)).
Proof.
  intros Hn. unfold dealPlayers.
  destruct (dealFrom_spec n deck 0 (replicate (Z.to_nat n) []))
    as (hs & -> & Hlen & Hseats); [lia|lia|by rewrite length_replicate|].
  rewrite length_replicate in Hlen. rewrite bind_Ret. do 2 f_equal.
  apply list_eq. intros k. rewrite list_lookup_fmap.
  destruct (decide (k < Z.to_nat n)%nat) as [Hk|Hk].
  - rewrite lookup_seqZ_lt by lia. simpl.
    assert (at_index (replicate (Z.to_nat n) ([] : list Card)) (Z.of_nat k) = Some []) as Hat.
    { rewrite at_index_nat. by apply lookup_replicate_2. }
    apply Hseats in Hat; [|lia]. by rewrite at_index_nat in Hat.
  - rewrite lookup_seqZ_ge by lia. simpl. apply lookup_ge_None. lia.
Qed.

Lemma concat_map_sortCards (hs : list (list Card)) :
  concat (map sortCardsByRankSuit hs) ≡ₚ concat hs.
Proof.
  induction hs as [|h hs IH]; [done|]. simpl. by rewrite sortCards_perm, IH.
Qed.



(** Four seats share a deck of [4 * k] cards evenly. *)
Lemma length_dealtTo_four (k : nat) : ∀ rest i s,
  0 ≤ s < 4 → 0 ≤ i → i `mod` 4 = 0 → length rest = (4 * k)%nat →
  length (dealtTo 4 s i rest) = k.
Proof.
  induction k as [|k IH]; intros rest i s Hs Hi Hmod Hlen.
  { by destruct rest. }
  destruct rest as [|a [|b [|c [|d rest]]]]; simpl in Hlen; try lia.
  assert ((i + 1) `mod` 4 = 1 ∧ (i + 1 + 1) `mod` 4 = 2 ∧ (i + 1 + 1 + 1) `mod` 4 = 3 ∧
          (i + 1 + 1 + 1 + 1) `mod` 4 = 0) as (H1 & H2 & H3 & H4).
  { repeat split; Z.div_mod_to_equations; lia. }
  simpl. rewrite Hmod, H1, H2, H3.
  specialize (IH rest (i + 1 + 1 + 1 + 1) s Hs ltac:(lia) H4 ltac:(lia)).
  repeat case_decide; simpl; rewrite IH; lia.
Qed.

Lemma holdsThreeOfClubs_spec h : holdsThreeOfClubs h = true ↔ mkCard R3 Club ∈ h.
Proof.
  unfold holdsThreeOfClubs. rewrite existsb_exists. split.
  - intros ([r s] & Hin%list_elem_of_In & [Hr Hs]%andb_true_iff).
    apply bool_decide_eq_true in Hr, Hs. simpl in *. by subst.
  - intros Hin. exists (mkCard R3 Club). split; [by apply list_elem_of_In|done].
Qed.

Lemma findIndex_found {A} (p : A → bool) (l : list A) x :
  x ∈ l → p x = true →
  ∃ (i : nat) y, findIndex p l = Z.of_nat i ∧ l !! i = Some y ∧ p y = true.
Proof.
  intros Hin Hp. unfold findIndex.
  destruct (list_find_elem_of (λ y, p y = true) l x Hin Hp) as [[i y] Hf].
  rewrite Hf. apply list_find_Some in Hf as (? & ? & _). by exists i, y.
Qed.

(** X17.  A game started from a shuffled deck of the 52 cards has four
    hands of thirteen cards, each sorted and together the whole deck; the
    seat to play first is the one that holds the 3 of clubs; nothing is on
    the table, no pass is counted, and the game is started and not
    finished.  The shuffled deck is the one [shuffle] returns for a random
    source whose indices lie inside the deck. *)
Theorem initSinglePlayer_spec (pick : nat → nat) :
  (∀ i, (1 ≤ i < 52)%nat → (pick i < 52)%nat) →
  ∃ deck st,
    shuffle buildDeck pick = Some <$> deck ∧
    initSinglePlayer deck = Ret st ∧
    players st = 4 ∧ length (hands st) = 4%nat ∧
    Forall (λ h, length h = 13%nat ∧ StronglySorted cardLe h) (hands st) ∧
    concat (hands st) ≡ₚ buildDeck ∧
    (∃ seat h, currentPlayer st = Num seat ∧ at_index (hands st) seat = Some h ∧
               mkCard R3 Club ∈ h) ∧
    lastCombo st = None ∧ passesInRow st = 0 ∧
    started st = true ∧ finished st = false.
Proof.
  intros Hpick.
  destruct (shuffle_perm buildDeck pick Hpick) as (deck & Hshuffle & Hdeck).
  assert (length deck = 52%nat) as Hlen by (by rewrite Hdeck).
  set (hs := map sortCardsByRankSuit ((λ s, dealtTo 4 s 0 deck) <$> seqZ 0 4)).
  assert (concat hs ≡ₚ buildDeck) as Hall.
  { unfold hs. rewrite concat_map_sortCards, concat_dealtTo by lia. done. }
  assert (∃ (i : nat) h, findIndex holdsThreeOfClubs hs = Z.of_nat i ∧
                          hs !! i = Some h ∧ mkCard R3 Club ∈ h) as (i & h & Hi & Hh & Hin).
  { assert (mkCard R3 Club ∈ concat hs) as Hc.
    { rewrite Hall. apply buildDeck_cards. }
    apply list_elem_of_In, in_concat in Hc as (h & Hh%list_elem_of_In & Hc%list_elem_of_In).
    destruct (findIndex_found holdsThreeOfClubs hs h Hh) as (i & y & ? & ? & Hy).
    { by apply holdsThreeOfClubs_spec. }
    exists i, y. split_and!; [done..|]. by apply holdsThreeOfClubs_spec. }
  assert (initSinglePlayer deck = Ret (mkState 4 hs (Num (Z.of_nat i)) None 0 true false))
    as Hinit.
  { unfold initSinglePlayer. rewrite dealPlayers_hands, bind_Ret by lia.
    fold hs. rewrite Hi. by rewrite decide_True by lia. }
  exists deck. eexists. split; [done|]. split; [exact Hinit|]. simpl.
  split_and!; try done.
  - unfold hs. apply Forall_forall. intros x Hx.
    apply list_elem_of_In, in_map_iff in Hx as (d & <- & Hd%list_elem_of_In).
    apply list_elem_of_fmap in Hd as (s & -> & Hs%elem_of_seqZ).
    split; [|apply sortCards_sorted].
    rewrite sortCards_length. apply (length_dealtTo_four 13); (done || lia).
  - exists (Z.of_nat i), h. split_and!; [done| |done]. by rewrite at_index_nat.
Qed.

Lemma initSinglePlayer_spec_witness :
  ∃ deck st,
    shuffle buildDeck (λ i, i) = Some <$> deck ∧
    initSinglePlayer deck = Ret st ∧
    players st = 4 ∧ length (hands st) = 4%nat ∧
    Forall (λ h, length h = 13%nat ∧ StronglySorted cardLe h) (hands st) ∧
    concat (hands st) ≡ₚ buildDeck ∧
    (∃ seat h, currentPlayer st = Num seat ∧ at_index (hands st) seat = Some h ∧
               mkCard R3 Club ∈ h) ∧
    lastCombo st = None ∧ passesInRow st = 0 ∧
    started st = true ∧ finished st = false.
Proof. apply (initSinglePlayer_spec (λ i, i)). intros i Hi. lia. Defined.

(** ** Grouping a hand by rank *)

Lemma groupGet_nil r : groupGet [] r = None.
Proof. reflexivity. Qed.

Lemma groupGet_cons e groups r :
  groupGet (e :: groups) r = if decide (e.1 = r) then Some e.2 else groupGet groups r.
Proof.
  unfold groupGet. simpl. destruct (decide (e.1 = r)); [done|].
  by destruct (list_find _ groups) as [[??]|].
Qed.

Lemma groupPush_nil c : groupPush [] c = [(rank c, [c])].
Proof. reflexivity. Qed.

Lemma groupPush_cons e groups c :
  groupPush (e :: groups) c =
    if decide (e.1 = rank c) then (rank c, e.2 ++ [c]) :: groups
    else e :: groupPush groups c.
Proof.
  unfold groupPush. simpl. destruct (decide (e.1 = rank c)) as [Heq|Hne].
  - by destruct e.
  - destruct (list_find _ groups) as [[i [k cs]]|]; done.
Qed.

(** Pushing a card appends it to the group of its rank, creating the group
    when there is none, and leaves the other groups alone. *)
Lemma groupGet_groupPush groups c r :
  groupGet (groupPush groups c) r =
    if decide (r = rank c) then Some (default [] (groupGet groups r) ++ [c])
    else groupGet groups r.
Proof.
  induction groups as [|e groups IH].
  { rewrite groupPush_nil, groupGet_cons, groupGet_nil. simpl.
    destruct (decide (rank c = r)), (decide (r = rank c)); congruence. }
  rewrite groupPush_cons, (groupGet_cons e).
  destruct (decide (e.1 = rank c)) as [Heq|Hne].
  - rewrite groupGet_cons. simpl.
    destruct (decide (rank c = r)) as [<-|Hr].
    + by rewrite !decide_True.
    + rewrite !(decide_False (P := e.1 = r)) by congruence.
      by rewrite decide_False by congruence.
  - rewrite groupGet_cons, IH.
    destruct (decide (e.1 = r)) as [<-|Hr]; [|done].
    by rewrite decide_False by congruence.
Qed.

Lemma groupGet_foldl (l : list Card) : ∀ groups r,
  groupGet (foldl groupPush groups l) r =
    match groupGet groups r, filter (λ c, rank c = r) l with
    | None, [] => None
    | o, cs => Some (default [] o ++ cs)
    end.
Proof.
  induction l as [|c l IH]; intros groups r.
  { simpl. destruct (groupGet groups r); [|done]. by rewrite app_nil_r. }
  simpl. rewrite IH, groupGet_groupPush, filter_cons.
  destruct (decide (r = rank c)) as [->|Hne].
  - rewrite decide_True by done.
    destruct (groupGet groups (rank c)), (filter _ l); simpl;
      by rewrite <-?(assoc_L (++)).
  - by rewrite decide_False by congruence.
Qed.

(** X18.  [groupCardsByRank] files every card under its rank and keeps the
    order of the hand: looking a rank up gives the cards of that rank in
    the order in which the hand holds them, and nothing when the hand has
    no card of that rank (there is no empty group). *)
Theorem groupCardsByRank_lookup (hand : list Card) (r : Rank) :
  groupGet (groupCardsByRank hand) r =
    match filter (λ c, rank c = r) hand with
    | [] => None
    | cs => Some cs
    end.
Proof.
  unfold groupCardsByRank. rewrite groupGet_foldl, groupGet_nil.
  by destruct (filter _ hand).
Qed.

(** The first card of a rank, as [findStraights] takes it. *)
Lemma groupGet_first hand r c cs :
  groupGet (groupCardsByRank hand) r = Some (c :: cs) →
  c ∈ hand ∧ rank c = r.
Proof.
  unfold groupCardsByRank. rewrite groupGet_foldl, groupGet_nil.
  destruct (filter _ hand) as [|c' cs'] eqn:Hf; [done|]. intros [= -> ->].
  assert (c ∈ filter (λ c, rank c = r) hand) as Hin by (rewrite Hf; by left).
  apply list_elem_of_filter in Hin as [? ?]. done.
Qed.

Lemma groupGet_present hand r c :
  c ∈ hand → rank c = r →
  ∃ c' cs, groupGet (groupCardsByRank hand) r = Some (c' :: cs).
Proof.
  intros Hin Hr. unfold groupCardsByRank. rewrite groupGet_foldl, groupGet_nil.
  destruct (filter _ hand) as [|c' cs'] eqn:Hf; [|by eauto].
  assert (c ∈ filter (λ c, rank c = r) hand) as Hc by (by apply list_elem_of_filter).
  rewrite Hf in Hc. by apply elem_of_nil in Hc.
Qed.

(** ** Enumerating the straights of a hand *)

Lemma RANKS_at k r : at_index RANKS k = Some r ↔ k = rankIndex r.
Proof.
  split.
  - intros [Hk H]%at_index_Some. remember (Z.to_nat k) as n eqn:Hn.
    do 13 (destruct n as [|n]; [injection H as <-; vm_compute; lia|]).
    done.
  - intros ->. by destruct r.
Qed.

(** The cards that [straightCardsFrom] adds are cards of the hand, one for
    each index, of the ranks [i + j], none of them a 2. *)
Lemma straightCardsFrom_Some hand i js : ∀ acc res,
  straightCardsFrom (groupCardsByRank hand) i js acc = Some res →
  ∃ new, res = acc ++ new ∧
    Forall2 (λ j c, c ∈ hand ∧ rankIndex (rank c) = i + j ∧ rank c ≠ R2) js new.
Proof.
  induction js as [|j js IH]; intros acc res H; simpl in H.
  { injection H as <-. exists []. by rewrite app_nil_r. }
  destruct (at_index RANKS (i + j)) as [r|] eqn:Hr; [|done].
  destruct (decide (r = R2)) as [|Hne]; [done|].
  destruct (groupGet _ r) as [[|c cs]|] eqn:Hg; try done.
  apply groupGet_first in Hg as [Hin Hrank]. apply RANKS_at in Hr.
  destruct (IH _ _ H) as (new & -> & Hnew).
  exists (c :: new). split; [by rewrite <-(assoc_L (++))|].
  constructor; [|done]. by subst.
Qed.

Lemma consecutive_from_seqZ (i : Z) (len : Z) (s : list Card) :
  Forall2 (λ j c, rankIndex (rank c) = i + j) (seqZ 0 len) s → consecutiveRun s.
Proof.
  intros H k a b Ha Hb.
  destruct (Forall2_lookup_r _ _ _ _ _ H Ha) as (ja & Hja & Hra).
  destruct (Forall2_lookup_r _ _ _ _ _ H Hb) as (jb & Hjb & Hrb).
  apply lookup_seqZ in Hja as [-> _]. apply lookup_seqZ in Hjb as [-> _]. lia.
Qed.

Lemma allEqualRank_NoDup cs :
  allEqualRank cs → NoDup (rank <$> cs) → (length cs ≤ 1)%nat.
Proof.
  destruct cs as [|a [|b cs]]; simpl; [lia..|].
  intros Hall Hnd. apply NoDup_cons in Hnd as [Hnin _]. destruct Hnin.
  rewrite (Hall a b); [by left|by left|by right; left].
Qed.

(** A run of at least three cards is detected as a straight. *)
Lemma detectCombo_run raw :
  (3 ≤ length raw)%nat → isRun raw →
  ∃ r, detectCombo raw = Ret (Some (mkCombo Straight (sortCardsByRankSuit raw) r)).
Proof.
  intros Hlen Hrun.
  pose proof (sortCards_length raw) as Hl.
  assert (isStraight (sortCardsByRankSuit raw) = true) as Hstr.
  { by apply isStraight_spec. }
  assert (everySameRank (sortCardsByRankSuit raw) = false) as Hsame.
  { apply not_true_iff_false. intros Hall%everySameRank_spec.
    rewrite sortCards_perm in Hall. destruct Hrun as (Hnd & _).
    pose proof (allEqualRank_NoDup raw Hall Hnd). lia. }
  assert (sortCardsByRankSuit raw ≠ []) as Hne.
  { intros Hnil. rewrite Hnil in Hl. simpl in Hl. lia. }
  destruct (highestRank_spec _ Hne) as (r & Hr & _).
  exists r. unfold detectCombo.
  rewrite !decide_False by lia. rewrite Hsame, Hstr, Hr, andb_false_r.
  by destruct (decide _).
Qed.

(** X19.  Every candidate that [findStraights] lists is a straight that the
    hand can play: it has between 3 and 10 cards, all cards of the hand, and
    the detector classifies it, as it stands, as a Straight.  A run of 11 or
    12 cards is never listed. *)
Theorem findStraights_sound (hand s : list Card) :
  s ∈ findStraights hand →
  (3 ≤ length s ≤ 10)%nat ∧ (∀ c, c ∈ s → c ∈ hand) ∧
  ∃ r, detectCombo s = Ret (Some (mkCombo Straight s r)).
Proof.
  unfold findStraights. intros Hs.
  apply list_elem_of_bind in Hs as (i & Hs & Hi%elem_of_seqZ).
  apply list_elem_of_bind in Hs as (len & Hs & Hlen%elem_of_seqZ).
  destruct (straightCardsFrom _ i (seqZ 0 len) []) as [cs|] eqn:Hcs;
    [|by apply elem_of_nil in Hs].
  destruct (decide (Z.of_nat (length cs) = len)) as [Hl|]; [|by apply elem_of_nil in Hs].
  apply list_elem_of_singleton in Hs as ->.
  apply straightCardsFrom_Some in Hcs as (new & -> & Hnew). simpl in *.
  assert (Forall (λ c, c ∈ hand ∧ rank c ≠ R2) new) as Hall.
  { eapply Forall2_Forall_r; [exact Hnew|]. apply Forall_forall. by intros ? _ ? (? & _ & ?). }
  assert (consecutiveRun new) as Hrun.
  { apply (consecutive_from_seqZ i len). eapply Forall2_impl; [exact Hnew|]. by intros ?? (_ & ? & _). }
  split; [lia|]. split.
  { intros c Hc. eapply Forall_forall in Hall; [|done]. by destruct Hall. }
  destruct (detectCombo_run new) as [r Hr]; [lia| |].
  { split_and!.
    - by apply consecutiveRun_NoDup.
    - intros c Hc. eapply Forall_forall in Hall; [|done]. by destruct Hall.
    - by exists new. }
  exists r. rewrite Hr. do 3 f_equal.
  apply sortCards_unique; [done|by apply consecutiveRun_sorted].
Qed.

Lemma findStraights_sound_witness :
  let hand := [mkCard R3 Spade; mkCard R4 Club; mkCard R4 Heart; mkCard R5 Club] in
  let s := [mkCard R3 Spade; mkCard R4 Club; mkCard R5 Club] in
  (3 ≤ length s ≤ 10)%nat ∧ (∀ c, c ∈ s → c ∈ hand) ∧
  ∃ r, detectCombo s = Ret (Some (mkCombo Straight s r)).
Proof.
  intros hand s. apply (findStraights_sound hand s).
  by apply (bool_decide_unpack _); vm_compute.
Defined.

Lemma straightCardsFrom_present hand i js : ∀ acc,
  (∀ j, j ∈ js → ∃ c, c ∈ hand ∧ rankIndex (rank c) = i + j ∧ rank c ≠ R2) →
  ∃ new, straightCardsFrom (groupCardsByRank hand) i js acc = Some (acc ++ new) ∧
         length new = length js.
Proof.
  induction js as [|j js IH]; intros acc Hjs; simpl.
  { exists []. by rewrite app_nil_r. }
  destruct (Hjs j) as (c & Hin & Hidx & Hne); [by left|].
  assert (at_index RANKS (i + j) = Some (rank c)) as -> by (by apply RANKS_at).
  rewrite decide_False by done.
  destruct (groupGet_present hand (rank c) c Hin eq_refl) as (c' & cs & ->).
  destruct (IH (acc ++ [c'])) as (new & -> & Hlen).
  { intros k Hk. apply Hjs. by right. }
  exists (c' :: new). split; [by rewrite <-(assoc_L (++))|]. simpl. by rewrite Hlen.
Qed.

(** X20.  [findStraights] misses no run of 3 to 10 ranks below the 2: when
    the hand has a card of each of the [len] ranks from index [i] on, it
    lists a candidate of [len] cards with exactly these ranks, in ascending
    order. *)
Theorem findStraights_complete (hand : list Card) (i len : Z) :
  0 ≤ i → 3 ≤ len ≤ 10 → i + len ≤ 12 →
  (∀ k, i ≤ k < i + len → ∃ c, c ∈ hand ∧ rankIndex (rank c) = k) →
  ∃ s, s ∈ findStraights hand ∧ Z.of_nat (length s) = len ∧
       ∀ (j : nat) c, s !! j = Some c → rankIndex (rank c) = i + Z.of_nat j.
Proof.
  intros Hi Hlen Htop Hranks.
  destruct (straightCardsFrom_present hand i (seqZ 0 len) []) as (new & Hnew & Hl).
  { intros j Hj%elem_of_seqZ. destruct (Hranks (i + j)) as (c & Hc & Hidx); [lia|].
    exists c. split_and!; [done..|]. intros Hr. rewrite Hr in Hidx.
    change (rankIndex R2) with 12 in Hidx. lia. }
  rewrite length_seqZ in Hl. simpl in Hnew.
  exists new. split_and!; [|lia|].
  - unfold findStraights. apply list_elem_of_bind. exists i. split; [|apply elem_of_seqZ; simpl; lia].
    apply list_elem_of_bind. exists len. split; [|apply elem_of_seqZ; simpl; lia].
    rewrite Hnew. rewrite decide_True by lia. by left.
  - intros j c Hj.
    apply straightCardsFrom_Some in Hnew as (new' & Heq & Hall). simpl in Heq. subst new'.
    destruct (Forall2_lookup_r _ _ _ _ _ Hall Hj) as (k & Hk & _ & Hidx & _).
    apply lookup_seqZ in Hk as [-> _]. lia.
Qed.

Lemma findStraights_complete_witness :
  let hand := [mkCard R3 Spade; mkCard R4 Club; mkCard R4 Heart; mkCard R5 Club] in
  ∃ s, s ∈ findStraights hand ∧ Z.of_nat (length s) = 3 ∧
       ∀ (j : nat) c, s !! j = Some c → rankIndex (rank c) = 0 + Z.of_nat j.
Proof.
  intros hand. apply (findStraights_complete hand 0 3); try lia.
  intros k Hk. assert (k = 0 ∨ k = 1 ∨ k = 2) as [Hk'|[Hk'|Hk']] by lia; subst k.
  - exists (mkCard R3 Spade). split; [by left|reflexivity].
  - exists (mkCard R4 Club). split; [by right; left|reflexivity].
  - exists (mkCard R5 Club). split; [by do 3 right; left|reflexivity].
Defined.

(** ** What the heuristic chooses *)

(** X21.  Out of turn the heuristic passes: for a seat with a hand,
    [aiChooseMove] returns the absent result when the game is finished or
    has not started, or when it is another seat's turn. *)
Theorem aiChooseMove_out_of_turn (st : GameState) (seat : PlayerId) (hand : list Card) :
  at_index (hands st) seat = Some hand →
  finished st = true ∨ started st = false ∨ currentPlayer st ≠ Num seat →
  aiChooseMove st seat = Ret None.
Proof.
  intros Hhand Hout.
  destruct (getAllLegalMoves_legal st seat hand Hhand) as (moves & Hmoves & Hlegal).
  assert (moves = []) as ->.
  { destruct moves as [|m moves]; [done|].
    apply Forall_cons in Hlegal as [(r & Hr & Hok) _].
    destruct (isLegalMove_ok_inv _ _ _ _ Hr Hok) as (Hfin & Hst & Hcur & _).
    destruct Hout as [?|[?|?]]; congruence. }
  unfold aiChooseMove, element. by rewrite Hhand, bind_Ret, Hmoves.
Qed.

Lemma aiChooseMove_out_of_turn_witness :
  aiChooseMove waitingSeatState 1 = Ret None.
Proof.
  apply (aiChooseMove_out_of_turn waitingSeatState 1 [mkCard R4 Spade]).
  - reflexivity.
  - right. right. discriminate.
Defined.

Lemma head_sort_insert {A} (cmp : A → A → Z) (y : A) (s : list A) :
  head (sort_insert cmp y s) =
    match s with
    | [] => Some y
    | z :: _ => if decide (0 < cmp y z) then Some z else Some y
    end.
Proof. destruct s as [|z s]; [done|]. simpl. by destruct (decide _). Qed.

(** The stable sort by descending score puts first the earliest of the
    entries with the highest score. *)
Lemma head_js_sort_first_max (l : list (list Card * Z)) x :
  head (js_sort byScoreDesc l) = Some x →
  ∃ pre post, l = pre ++ x :: post ∧
    Forall (λ y, y.2 < x.2) pre ∧ Forall (λ y, y.2 ≤ x.2) post.
Proof.
  revert x. induction l as [|y l IH]; intros x Hx; [done|].
  simpl in Hx. rewrite head_sort_insert in Hx.
  destruct (js_sort byScoreDesc l) as [|z s] eqn:Hs.
  - injection Hx as <-.
    assert (l = []) as ->.
    { apply (f_equal length) in Hs. rewrite length_js_sort in Hs. by destruct l. }
    exists [], []. by split_and!.
  - destruct (IH z eq_refl) as (pre & post & -> & Hpre & Hpost).
    unfold byScoreDesc in Hx. destruct (decide (0 < z.2 - y.2)) as [Hlt|Hge].
    + injection Hx as <-. exists (y :: pre), post. split_and!; [done| |done].
      constructor; [lia|done].
    + injection Hx as <-. exists [], (pre ++ z :: post). split_and!; [done..|].
      apply Forall_app. split; [|constructor].
      * eapply Forall_impl; [exact Hpre|]. simpl. intros; lia.
      * lia.
      * eapply Forall_impl; [exact Hpost|]. simpl. intros; lia.
Qed.

(** An opening single scores at least 7, any other opening at most 7. *)
Lemma scoreOpeningMove_bounds move hand z :
  scoreOpeningMove move (Some hand) = Ret z →
  (length move = 1%nat → 7 ≤ z) ∧ (length move ≠ 1%nat → z ≤ 7).
Proof.
  unfold scoreOpeningMove. intros H.
  destruct (decide (length move = 1%nat)) as [Hlen|Hlen].
  - split; [intros _|done].
    destruct move as [|m0 [|??]]; try done.
    rewrite element_0, !bind_Ret in H.
    change (detectCombo [m0]) with (Ret (Some (mkCombo Single [m0] (rank m0)))) in H.
    rewrite bind_Ret in H. simpl in H.
    repeat case_decide; simplify_eq; lia.
  - split; [done|intros _].
    destruct (detectCombo_total move) as [res Hres]. rewrite Hres in H.
    assert (∀ base, base ≤ 5 →
              (Ret base ≫= λ score, Ret res ≫= λ combo,
                 match combo with
                 | Some combo =>
                     if decide (type combo = Pair ∨ type combo = Triple) then Ret (score + 2)
                     else Ret score
                 | None => Ret score
                 end) = Ret z → z ≤ 7) as Hbase.
    { intros base Hb. rewrite !bind_Ret. destruct res as [c|]; [|intros [= Hz]; lia].
      destruct (decide (type c = Pair ∨ type c = Triple)); intros [= Hz]; lia. }
    repeat case_decide; eapply Hbase; try exact H; lia.
Qed.

Lemma isLegalMove_opening_single st seat hand c :
  finished st = false → started st = true → currentPlayer st = Num seat →
  lastCombo st = None → at_index (hands st) seat = Some hand → c ∈ hand →
  isLegalMove st seat [c] = Ret (accepted (mkCombo Single [c] (rank c))).
Proof.
  intros Hfin Hst Hcur Hlast Hhand Hin. unfold isLegalMove, element.
  rewrite Hfin, Hst, Hcur, Hlast, Hhand. simpl negb. cbv iota.
  rewrite decide_False by (by intros []). rewrite bind_Ret.
  destruct (takeFromHand hand [c]) eqn:Htake.
  - done.
  - apply takeFromHand_None in Htake as [x Hx].
    rewrite copies_cons in Hx. change (copies x []) with 0%nat in Hx.
    destruct (decide (c = x)) as [<-|]; [|lia].
    apply copies_pos in Hin. lia.
Qed.

Lemma tryMove_prefix st seat hand (m1 : list (list Card)) moves move :
  at_index (hands st) seat = Some hand →
  m1 `prefix_of` moves →
  ∃ moves', tryMove st seat moves move = Ret moves' ∧ m1 `prefix_of` moves'.
Proof.
  intros Hhand Hpre. unfold tryMove.
  destruct (isLegalMove_total st seat move hand Hhand) as [r ->]. rewrite bind_Ret.
  destruct (ok r); eexists; (split; [done|]); [|done].
  by apply prefix_app_r.
Qed.

(** With the lead, every card of the hand is a legal single, and these
    singles come first among the candidates, in the order of the hand. *)
Lemma getAllLegalMoves_opening st seat hand :
  finished st = false → started st = true → currentPlayer st = Num seat →
  lastCombo st = None → at_index (hands st) seat = Some hand →
  ∃ moves, getAllLegalMoves st seat = Ret moves ∧
    ((λ c, [c]) <$> hand) `prefix_of` moves.
Proof.
  intros Hfin Hst Hcur Hlast Hhand.
  assert (∀ l acc, (∀ c, c ∈ l → c ∈ hand) →
            foldlM (λ moves card, tryMove st seat moves [card]) acc l =
            Ret (acc ++ ((λ c, [c]) <$> l))) as Hsingles.
  { induction l as [|c l IH]; intros acc Hl.
    { simpl. by rewrite app_nil_r. }
    assert (tryMove st seat acc [c] = Ret (acc ++ [[c]])) as Hstep.
    { unfold tryMove.
      by rewrite (isLegalMove_opening_single st seat hand c) by (done || (apply Hl; by left)). }
    rewrite foldlM_cons. cbv beta. rewrite Hstep, bind_Ret.
    rewrite IH by (intros; apply Hl; by right).
    by rewrite fmap_cons, <-(assoc_L (++)). }
  unfold getAllLegalMoves, element. rewrite Hhand, bind_Ret.
  rewrite Hsingles by done. rewrite bind_Ret. cbv zeta. simpl app.
  set (m1 := (λ c, [c]) <$> hand).
  eapply (bind_returns (λ acc, m1 `prefix_of` acc)).
  { apply foldlM_invariant; [|done]. intros acc e _ Hacc.
    destruct (decide _); [|by eexists].
    eapply (bind_returns (λ acc, m1 `prefix_of` acc)); [by eapply tryMove_prefix|].
    intros acc' Hacc'. destruct (decide _); [|by eexists]. by eapply tryMove_prefix. }
  intros m2 H2.
  eapply (bind_returns (λ acc, m1 `prefix_of` acc)).
  { apply foldlM_invariant; [|done]. intros; by eapply tryMove_prefix. }
  intros m3 H3.
  apply foldlM_invariant; [|done].
  intros acc e _ Hacc. destruct (decide _); [|by eexists]. by eapply tryMove_prefix.
Qed.

(** X22.  With the lead the heuristic always leads one card: when it is
    the seat's turn in a game in progress, nothing is on the table and the
    hand is not empty, [aiChooseMove] returns a single card of the hand (it
    neither passes nor opens with a pair, a triple, a straight or a bomb). *)
Theorem aiChooseMove_opens_with_single (st : GameState) (seat : PlayerId) (hand : list Card) :
  finished st = false → started st = true → currentPlayer st = Num seat →
  lastCombo st = None → at_index (hands st) seat = Some hand → hand ≠ [] →
  ∃ c, aiChooseMove st seat = Ret (Some [c]) ∧ c ∈ hand.
Proof.
  intros Hfin Hst Hcur Hlast Hhand Hne.
  destruct (getAllLegalMoves_opening st seat hand) as (moves & Hmoves & Hpre); [done..|].
  destruct (getAllLegalMoves_legal st seat hand Hhand) as (moves' & Hmoves' & Hlegal).
  rewrite Hmoves in Hmoves'. injection Hmoves' as <-.
  destruct hand as [|c0 hand']; [done|].
  destruct Hpre as [extra ->]. rewrite fmap_cons in *. simpl app in *.
  unfold aiChooseMove, element. rewrite Hhand, bind_Ret. cbv zeta. rewrite Hmoves, bind_Ret.
  rewrite decide_False by done. unfold selectBestMove.
  rewrite decide_False by done. rewrite Hlast. unfold selectBestOpeningMove. rewrite Hhand.
  destruct (mapM_outcome
              (λ m (p : list Card * Z),
                 p.1 = m ∧ scoreOpeningMove m (Some (c0 :: hand')) = Ret p.2)
              (λ move, score ← scoreOpeningMove move (Some (c0 :: hand')); Ret (move, score))
              ([c0] :: ((λ c, [c]) <$> hand') ++ extra))
    as (scored & -> & Hscored).
  { intros m _. destruct (scoreOpeningMove_total (c0 :: hand') m) as [z Hz].
    exists (m, z). by rewrite Hz. }
  rewrite bind_Ret.
  apply Forall2_cons_inv_l in Hscored as (p0 & scored' & [Hp0 Hs0] & Hscored' & ->).
  destruct (js_sort byScoreDesc (p0 :: scored')) as [|best rest] eqn:Hsort.
  { apply (f_equal length) in Hsort. by rewrite length_js_sort in Hsort. }
  destruct (head_js_sort_first_max (p0 :: scored') best) as (pre & post & Heq & Hlow & _).
  { by rewrite Hsort. }
  assert (best ∈ p0 :: scored') as Hbest by (rewrite Heq; apply elem_of_app; right; by left).
  assert (∃ m, m ∈ [c0] :: ((λ c, [c]) <$> hand') ++ extra ∧ best.1 = m ∧
               scoreOpeningMove m (Some (c0 :: hand')) = Ret best.2) as (m & Hm & Hfst & Hscore).
  { apply elem_of_cons in Hbest as [->|Hbest].
    - exists [c0]. split_and!; [by left|done..].
    - apply list_elem_of_lookup in Hbest as [i Hi].
      destruct (Forall2_lookup_r _ _ _ _ _ Hscored' Hi) as (m & Hm & ? & ?).
      exists m. split_and!; [|done..]. right. by eapply list_elem_of_lookup_2. }
  assert (length m = 1%nat) as Hlen.
  { destruct (decide (length m = 1%nat)) as [|Hlen]; [done|].
    apply scoreOpeningMove_bounds in Hscore as [_ Hhigh]. specialize (Hhigh Hlen).
    apply scoreOpeningMove_bounds in Hs0 as [Hlow0 _]. specialize (Hlow0 eq_refl).
    destruct pre as [|q pre].
    - simpl in Heq. injection Heq as -> _. rewrite Hp0 in Hfst. by subst m.
    - simpl in Heq. injection Heq as <- _. apply Forall_cons in Hlow as [Hlt _]. lia. }
  destruct m as [|c [|??]]; try done.
  exists c. rewrite Hfst. split; [done|].
  eapply Forall_forall in Hlegal; [|exact Hm].
  destruct Hlegal as (r & Hr & Hok).
  destruct (isLegalMove_ok_inv _ _ _ _ Hr Hok) as (_ & _ & _ & h & ? & Hh & Hmiss & _).
  rewrite Hhand in Hh. injection Hh as <-.
  apply copies_elem_of. destruct (decide (0 < copies c (c0 :: hand'))%nat) as [|Hz]; [done|].
  destruct Hmiss. exists c. rewrite (copies_cons c c), decide_True by done. lia.
Qed.

Lemma aiChooseMove_opens_with_single_witness :
  let hand := [mkCard R3 Spade; mkCard R3 Heart; mkCard R9 Club] in
  let st := {| players := 2;
               hands := [hand; [mkCard R4 Spade]];
               currentPlayer := Num 0;
               lastCombo := None;
               passesInRow := 0;
               started := true;
               finished := false |} in
  ∃ c, aiChooseMove st 0 = Ret (Some [c]) ∧ c ∈ hand.
Proof.
  intros hand st. by apply (aiChooseMove_opens_with_single st 0 hand).
Defined.

(** Against the combination on the table, a legal candidate that is not a
    bomb scores 15, and a legal bomb at most -5. *)
Lemma scoreFollowingMove_value st seat last move p :
  lastCombo st = Some last → legalFor st seat move →
  scoreFollowingMove last move = Ret p →
  ∃ c, detectCombo move = Ret (Some c) ∧ p.1 = move ∧
       (type c ≠ Bomb4 → p.2 = 15) ∧ (type c = Bomb4 → p.2 ≤ -5).
Proof.
  intros Hlast (r & Hr & Hok) Hp.
  destruct (isLegalMove_ok_beats _ _ _ _ _ Hr Hok Hlast) as (c & z & Hdet & Hz & Hpos).
  destruct (compareCombos_total last c) as (z' & Hz' & Hrange).
  { destruct (detectCombo_cards _ _ Hdet) as [Hcards Hne].
    rewrite Hcards. intros Hnil. apply (f_equal length) in Hnil.
    rewrite sortCards_length in Hnil. by destruct move. }
  rewrite Hz in Hz'. injection Hz' as <-.
  assert (z = 1) as -> by lia.
  exists c. unfold scoreFollowingMove in Hp.
  rewrite Hdet, bind_Ret, Hz, bind_Ret in Hp. rewrite decide_False in Hp by lia.
  change (beats last c) in Hz. apply beats_iff in Hz.
  injection Hp as <-. simpl. split_and!; [done..| |].
  - intros Hnb. destruct Hz as [(_ & ? & _)|[(_ & ?)|(_ & _ & Hty & Hlen & _)]]; [done..|].
    rewrite (decide_False (P := type c = Bomb4)) by done.
    rewrite decide_True by done. lia.
  - intros Hb. rewrite (decide_True (P := type c = Bomb4)) by done.
    destruct (decide _); lia.
Qed.

(** The following heuristic returns a candidate of the highest score. *)
Lemma selectBestFollowingMove_max st seat last moves play :
  lastCombo st = Some last → Forall (legalFor st seat) moves →
  selectBestFollowingMove moves st seat = Ret (Some play) →
  ∃ p, scoreFollowingMove last play = Ret p ∧ play ∈ moves ∧
    ∀ m q, m ∈ moves → scoreFollowingMove last m = Ret q → q.2 ≤ p.2.
Proof.
  intros Hlast Hlegal. unfold selectBestFollowingMove. rewrite Hlast.
  destruct (mapM_outcome
              (λ m (p : list Card * Z), scoreFollowingMove last m = Ret p ∧ p.1 = m)
              (scoreFollowingMove last) moves) as (scored & -> & Hscored).
  { intros m _. destruct (scoreFollowingMove_total last m) as (p & Hp & Hfst). by exists p. }
  rewrite bind_Ret. cbv zeta.
  assert (List.filter (λ item : list Card * Z, bool_decide (-1000 < item.2)) scored = scored)
    as ->.
  { assert (Forall (λ p : list Card * Z, -1000 < p.2) scored) as Hvalid.
    { apply Forall_lookup. intros i p Hi.
      destruct (Forall2_lookup_r _ _ _ _ _ Hscored Hi) as (m & Hm & Hp & _).
      eapply (scoreFollowingMove_legal st seat); [done| |done].
      eapply Forall_forall in Hlegal; [done|]. by eapply list_elem_of_lookup_2. }
    clear Hscored. induction Hvalid as [|p l Hp _ IH]; [done|]. simpl.
    by rewrite bool_decide_eq_true_2, IH. }
  destruct (decide (length scored = 0%nat)); [done|].
  destruct (js_sort byScoreDesc scored) as [|best rest] eqn:Hsort.
  { apply (f_equal length) in Hsort. by rewrite length_js_sort in Hsort. }
  rewrite element_0, bind_Ret. intros [= <-].
  destruct (head_js_sort_first_max scored best) as (pre & post & Heq & Hlow & Hhigh).
  { by rewrite Hsort. }
  assert (∀ q, q ∈ scored → q.2 ≤ best.2) as Hmax.
  { intros q Hq. rewrite Heq in Hq.
    apply elem_of_app in Hq as [Hq|[->|Hq]%elem_of_cons].
    - eapply Forall_forall in Hlow; [|done]. simpl in Hlow. lia.
    - lia.
    - by eapply Forall_forall in Hhigh. }
  assert (best ∈ scored) as Hbest by (rewrite Heq; apply elem_of_app; right; by left).
  apply list_elem_of_lookup in Hbest as [i Hi].
  destruct (Forall2_lookup_r _ _ _ _ _ Hscored Hi) as (m & Hm & Hp & Hfst).
  exists best. rewrite Hfst. split_and!; [done|by eapply list_elem_of_lookup_2|].
  intros m' q [j Hj]%list_elem_of_lookup Hq.
  destruct (Forall2_lookup_l _ _ _ _ _ Hscored Hj) as (q' & Hq' & Hs & _).
  rewrite Hq in Hs. injection Hs as <-. apply Hmax. by eapply list_elem_of_lookup_2.
Qed.

(** X23.  The heuristic keeps its bombs: when it answers the combination on
    the table and some legal candidate is not a bomb, the card set that
    [aiChooseMove] returns is not a bomb either. *)
Theorem aiChooseMove_saves_bombs (st : GameState) (seat : PlayerId) (hand : list Card)
    (last : Combo) (moves : list (list Card)) (play : list Card) :
  at_index (hands st) seat = Some hand → lastCombo st = Some last →
  getAllLegalMoves st seat = Ret moves →
  aiChooseMove st seat = Ret (Some play) →
  (∃ m c, m ∈ moves ∧ detectCombo m = Ret (Some c) ∧ type c ≠ Bomb4) →
  ∃ c, detectCombo play = Ret (Some c) ∧ type c ≠ Bomb4.
Proof.
  intros Hhand Hlast Hmoves Hplay (m & cm & Hm & Hdm & Hnb).
  destruct (getAllLegalMoves_legal st seat hand Hhand) as (moves' & Hmoves' & Hlegal).
  rewrite Hmoves in Hmoves'. injection Hmoves' as <-.
  unfold aiChooseMove, element in Hplay.
  rewrite Hhand, bind_Ret, Hmoves, bind_Ret in Hplay.
  destruct (decide (length moves = 0%nat)); [done|].
  unfold selectBestMove in Hplay.
  destruct (decide (length moves = 0%nat)); [done|]. rewrite Hlast in Hplay.
  destruct (selectBestFollowingMove_max st seat last moves play Hlast Hlegal Hplay)
    as (p & Hp & Hin & Hmax).
  destruct (scoreFollowingMove_total last m) as (q & Hq & _).
  assert (legalFor st seat m) as Hlm by (by eapply Forall_forall in Hlegal).
  assert (legalFor st seat play) as Hlp by (by eapply Forall_forall in Hlegal).
  destruct (scoreFollowingMove_value st seat last m q Hlast Hlm Hq) as (cm' & Hdm' & _ & H15 & _).
  rewrite Hdm in Hdm'. injection Hdm' as <-. specialize (H15 Hnb).
  destruct (scoreFollowingMove_value st seat last play p Hlast Hlp Hp) as (c & Hdc & _ & _ & Hbomb).
  exists c. split; [done|]. intros Hb. specialize (Hbomb Hb).
  specialize (Hmax m q Hm Hq). lia.
Qed.

Lemma aiChooseMove_saves_bombs_witness :
  let hand := [mkCard R5 Club; mkCard R9 Club; mkCard R9 Diamond; mkCard R9 Heart;
               mkCard R9 Spade] in
  let st := {| players := 2;
               hands := [hand; [mkCard R4 Spade]];
               currentPlayer := Num 0;
               lastCombo := Some (mkCombo Single [mkCard R4 Spade] R4);
               passesInRow := 0;
               started := true;
               finished := false |} in
  ∃ c, detectCombo [mkCard R5 Club] = Ret (Some c) ∧ type c ≠ Bomb4.
Proof.
  intros hand st.
  eapply (aiChooseMove_saves_bombs st 0 hand _ _ [mkCard R5 Club]).
  - reflexivity.
  - reflexivity.
  - vm_compute. reflexivity.
  - vm_compute. reflexivity.
  - exists [mkCard R5 Club]. eexists. split_and!; [by left|reflexivity|discriminate].
Defined.

(** ** The simple heuristic *)

Lemma cardLe_refl c : cardLe c c.
Proof. by destruct (total cardLe c c). Qed.

Lemma firstLegalSingle_spec st seat hand sorted :
  at_index (hands st) seat = Some hand → StronglySorted cardLe sorted →
  ∃ res, firstLegalSingle st seat sorted = Ret res ∧
    match res with
    | Some play =>
        ∃ c, play = [c] ∧ c ∈ sorted ∧ legalFor st seat [c] ∧
             ∀ d, d ∈ sorted → legalFor st seat [d] → cardLe c d
    | None => ∀ d, d ∈ sorted → ¬ legalFor st seat [d]
    end.
Proof.
  intros Hhand. induction 1 as [|c l Hl IH Hc]; simpl.
  { exists None. split; [done|]. by intros d ?%elem_of_nil. }
  destruct (isLegalMove_total st seat [c] hand Hhand) as [r Hr]. rewrite Hr, bind_Ret.
  destruct (ok r) eqn:Hok.
  - exists (Some [c]). split; [done|]. exists c. split_and!; [done|by left|by exists r|].
    intros d [->|Hd]%elem_of_cons _; [apply cardLe_refl|].
    by eapply Forall_forall in Hc.
  - assert (¬ legalFor st seat [c]) as Hnot.
    { intros (r' & Hr' & Hok'). congruence. }
    destruct IH as (res & -> & Hres). exists res. split; [done|].
    destruct res as [play|].
    + destruct Hres as (c' & -> & Hin & Hlegal & Hmin).
      exists c'. split_and!; [done|by right|done|].
      intros d [->|Hd]%elem_of_cons Hd'; [done|]. by apply Hmin.
    + intros d [->|Hd]%elem_of_cons; [done|]. by apply Hres.
Qed.

(** X24.  The simple heuristic plays the lowest card that is legal on its
    own: for a seat with a hand, [aiChooseMoveSimple] returns one card of
    the hand that passes [isLegalMove] and is lowest, in the rank-then-suit
    order, among the cards of the hand that do; it passes exactly when no
    card of the hand is legal as a single, whatever pairs or straights the
    hand holds. *)
Theorem aiChooseMoveSimple_lowest (st : GameState) (seat : PlayerId) (hand : list Card) :
  at_index (hands st) seat = Some hand →
  ∃ res, aiChooseMoveSimple st seat = Ret res ∧
    match res with
    | Some play =>
        ∃ c, play = [c] ∧ c ∈ hand ∧ legalFor st seat [c] ∧
             ∀ d, d ∈ hand → legalFor st seat [d] → cardLe c d
    | None => ∀ d, d ∈ hand → ¬ legalFor st seat [d]
    end.
Proof.
  intros Hhand. unfold aiChooseMoveSimple, element. rewrite Hhand, bind_Ret.
  destruct (firstLegalSingle_spec st seat hand (sortCardsByRankSuit hand) Hhand)
    as (res & -> & Hres); [apply sortCards_sorted|].
  exists res. split; [done|]. destruct res as [play|].
  - destruct Hres as (c & -> & Hin & Hlegal & Hmin). exists c.
    split_and!; [done|by rewrite <-(sortCards_perm hand)|done|].
    intros d Hd. apply Hmin. by rewrite sortCards_perm.
  - intros d Hd. apply Hres. by rewrite sortCards_perm.
Qed.

Lemma aiChooseMoveSimple_lowest_witness :
  let hand := [mkCard R9 Club; mkCard R3 Heart; mkCard R5 Club] in
  let st := {| players := 2;
               hands := [hand; [mkCard R4 Spade]];
               currentPlayer := Num 0;
               lastCombo := Some (mkCombo Single [mkCard R4 Spade] R4);
               passesInRow := 0;
               started := true;
               finished := false |} in
  ∃ res, aiChooseMoveSimple st 0 = Ret res ∧
    match res with
    | Some play =>
        ∃ c, play = [c] ∧ c ∈ hand ∧ legalFor st 0 [c] ∧
             ∀ d, d ∈ hand → legalFor st 0 [d] → cardLe c d
    | None => ∀ d, d ∈ hand → ¬ legalFor st 0 [d]
    end.
Proof. intros hand st. by apply (aiChooseMoveSimple_lowest st 0 hand). Defined.

(** ** The game page *)

(** X25.  Clicking a card flips its membership in the selection and leaves
    the other cards as they are; a selection without repeated cards stays
    without repeated cards, so what the page proposes to [isLegalMove] is a
    set of cards. *)
Theorem toggleSelect_spec (prev : list Card) (c : Card) :
  NoDup prev →
  NoDup (toggleSelect prev c) ∧
  (c ∈ toggleSelect prev c ↔ c ∉ prev) ∧
  ∀ d, d ≠ c → (d ∈ toggleSelect prev c ↔ d ∈ prev).
Proof.
  intros Hnd. unfold toggleSelect.
  destruct (findIndex_sameCard c prev) as [[Hnin ->]|(i & -> & Hi)].
  - rewrite decide_False by lia. split_and!.
    + apply NoDup_app. split_and!; [done| |apply NoDup_singleton].
      intros x Hx Hc%list_elem_of_singleton. by subst.
    + split; [done|]. intros _. apply elem_of_app. right. by left.
    + intros d Hne. rewrite elem_of_app, list_elem_of_singleton.
      split; [by intros [?|?]|by left].
  - rewrite decide_True by lia. unfold splice1. rewrite Nat2Z.id.
    pose proof (delete_Permutation prev i c Hi) as Hp.
    rewrite Hp in Hnd. apply NoDup_cons in Hnd as [Hnin Hnd'].
    split_and!; [done| |].
    + split; [done|]. intros Hout. destruct Hout. by eapply list_elem_of_lookup_2.
    + intros d Hne. split; intros Hd.
      * rewrite Hp. by right.
      * assert (d ∈ c :: delete i prev) as [->|Hd']%elem_of_cons; [by rewrite <-Hp|done..].
Qed.

Lemma toggleSelect_spec_witness :
  let prev := [mkCard R3 Spade; mkCard R4 Club] in
  let c := mkCard R3 Spade in
  NoDup (toggleSelect prev c) ∧
  (c ∈ toggleSelect prev c ↔ c ∉ prev) ∧
  ∀ d, d ≠ c → (d ∈ toggleSelect prev c ↔ d ∈ prev).
Proof.
  intros prev c. apply toggleSelect_spec.
  by apply (bool_decide_unpack _); vm_compute.
Defined.

(** [applyMove] for a seat with a hand, as one equation. *)
Lemma applyMove_hand st seat c hand :
  at_index (hands st) seat = Some hand →
  applyMove st seat c =
    Ret {| players := players st;
           hands := <[Z.to_nat seat := removeCards hand (cards c)]> (hands st);
           currentPlayer := js_rem (seat + 1) (players st);
           lastCombo := Some c;
           passesInRow := 0;
           started := started st;
           finished := if decide (length (removeCards hand (cards c)) = 0%nat) then true
                       else finished st |}.
Proof.
  intros Hhand. unfold applyMove.
  rewrite (removeFromHands_loop _ _ _ _ Hhand), bind_Ret.
  unfold element. by rewrite (at_index_insert _ _ _ _ Hhand), bind_Ret.
Qed.





(** X27.  The step of the page for the other seats never leaves the game
    stuck: in a game in progress, when it is the turn of a seat other than
    seat 0 that has a hand, the step returns a state in which the turn has
    gone to the next seat; the seat's hand is a part of its old hand, the
    other hands are unchanged; the step plays whenever the heuristic
    returns a card set, and passes, by [applyPass], only when it returns
    none. *)
Theorem aiTurn_moves_on (st : GameState) (seat : PlayerId) (hand : list Card) :
  finished st = false → started st = true → currentPlayer st = Num seat →
  seat ≠ 0 → 0 < players st → at_index (hands st) seat = Some hand →
  ∃ st' hand', aiTurn st = Ret (Some st') ∧
    currentPlayer st' = Num ((seat + 1) `mod` players st) ∧
    at_index (hands st') seat = Some hand' ∧ hand' `sublist_of` hand ∧
    (∀ other, other ≠ seat → at_index (hands st') other = at_index (hands st) other) ∧
    (aiChooseMove st seat = Ret None → st' = applyPass st seat) ∧
    (∀ play, aiChooseMove st seat = Ret (Some play) →
       ∃ c, detectCombo play = Ret (Some c) ∧ applyMove st seat c = Ret st').
Proof.
  intros Hfin Hst Hcur Hne Hplayers Hhand.
  apply at_index_Some in Hhand as Hseat. destruct Hseat as [Hseat _].
  destruct (getAllLegalMoves_legal st seat hand Hhand) as (moves & Hmoves & Hlegal).
  destruct (selectBestMove_elem_of st seat hand Hhand moves Hlegal) as (best & Hbest & _ & Hin).
  assert (aiChooseMove st seat = Ret (if decide (length moves = 0%nat) then None else best))
    as Hchoose.
  { unfold aiChooseMove, element. rewrite Hhand, bind_Ret. cbv zeta.
    rewrite Hmoves, bind_Ret. by destruct (decide _). }
  assert (∀ play, aiChooseMove st seat = Ret (Some play) → legalFor st seat play) as Hplay.
  { intros play Hp. rewrite Hchoose in Hp. destruct (decide _); [done|].
    injection Hp as ->. eapply Forall_forall in Hlegal; [done|]. by apply Hin. }
  unfold aiTurn. rewrite Hfin, Hst, Hcur. simpl negb. cbv iota.
  rewrite decide_False by (intros [=]; done).
  destruct (aiChooseMove st seat) as [[play|]|] eqn:Hai; [| |done]; rewrite bind_Ret.
  - destruct (Hplay play eq_refl) as (r & Hr & Hok).
    destruct (isLegalMove_ok_inv _ _ _ _ Hr Hok) as (_ & _ & _ & h & c & Hh & _ & Hdet & ->).
    destruct (detectCombo_cards _ _ Hdet) as [_ Hnil].
    rewrite decide_True by (destruct play; simpl; [done|lia]).
    rewrite Hr, bind_Ret. simpl.
    rewrite (applyMove_hand _ _ _ _ Hhand), bind_Ret.
    eexists. exists (removeCards hand (cards c)). split; [done|]. simpl.
    split_and!; [by apply js_rem_mod; lia|by eapply at_index_insert
                |apply removeCards_sublist| |done|].
    + intros other Hother. by apply at_index_insert_ne.
    + intros play' [= <-]. exists c. split; [done|]. by apply applyMove_hand.
  - exists (applyPass st seat), hand. split; [done|].
    unfold applyPass. rewrite Hfin. simpl.
    split_and!; [by apply js_rem_mod; lia|done..].
Qed.

Lemma aiTurn_moves_on_witness :
  let st := {| players := 2;
               hands := [[mkCard R3 Spade]; [mkCard R4 Spade; mkCard R9 Club]];
               currentPlayer := Num 1;
               lastCombo := Some (mkCombo Single [mkCard R3 Club] R3);
               passesInRow := 0;
               started := true;
               finished := false |} in
  let hand := [mkCard R4 Spade; mkCard R9 Club] in
  ∃ st' hand', aiTurn st = Ret (Some st') ∧
    currentPlayer st' = Num ((1 + 1) `mod` players st) ∧
    at_index (hands st') 1 = Some hand' ∧ hand' `sublist_of` hand ∧
    (∀ other, other ≠ 1 → at_index (hands st') other = at_index (hands st) other) ∧
    (aiChooseMove st 1 = Ret None → st' = applyPass st 1) ∧
    (∀ play, aiChooseMove st 1 = Ret (Some play) →
       ∃ c, detectCombo play = Ret (Some c) ∧ applyMove st 1 c = Ret st').
Proof.
  intros st hand. apply (aiTurn_moves_on st 1 hand); try reflexivity; lia.
Defined.
